(** * ConsumptionSaving: a two-period consumption-saving model

    Shallow embedding of [exam/ConsumptionSaving.py] (class
    [ConsumptionSavingModel]) and the properties of its solver and simulator.

    Conventions of the embedding.
    - Python floats are idealised as real numbers ([R]): rounding and overflow
      are not modelled, every other behaviour of the arithmetic the class uses
      (division by zero, powers of zero and of negative numbers) is.
    - A Python expression that can raise is a value of [outcome]; the methods
      that call into scipy run in the monad [M], which also records the calls
      made to [optimize.minimize] and to the constructor of
      [interpolate.RegularGridInterpolator], in program order.
    - scipy's optimizer is a parameter of the development (Section variable
      [minimize]); numpy's [linspace] and scipy's one-dimensional
      [RegularGridInterpolator] are modelled by definitions. *)

From Stdlib Require Import Reals Lra Lia List ZArith Bool.
Import ListNotations.
Local Open Scope R_scope.

(** ** Python expressions that may fail *)

Inductive exn : Type :=
| ZeroDivisionError
| ValueError
| IndexError.

(** [Return x]: the expression evaluates to the float [x].
    [Raise e]: it raises [e].
    [NonReal]: it evaluates to something that is not a real number (a negative
    float raised to a non-integral power: a complex number for Python floats,
    nan for numpy scalars). *)
Inductive outcome (A : Type) : Type :=
| Return (a : A)
| Raise (e : exn)
| NonReal.

Arguments Return {A} a.
Arguments Raise {A} e.
Arguments NonReal {A}.

Definition obind {A B : Type} (o : outcome A) (k : A -> outcome B) : outcome B :=
  match o with
  | Return a => k a
  | Raise e => Raise e
  | NonReal => NonReal
  end.

Declare Scope outcome_scope.
Delimit Scope outcome_scope with outcome.
Notation "x <- c ;; k" := (obind c (fun x => k))
  (at level 61, c at next level, right associativity) : outcome_scope.

(** The expression returned a (finite, real) float. *)
Definition returns {A : Type} (o : outcome A) : Prop :=
  exists a, o = Return a.

(** The expression failed or did not produce a finite real number. *)
Definition fails_or_nonfinite {A : Type} (o : outcome A) : Prop :=
  match o with
  | Return _ => False
  | Raise _ => True
  | NonReal => True
  end.

(** ** Float arithmetic that can fail *)

(** [y] is an integral float. *)
Definition is_integer (y : R) : Prop := IZR (Int_part y) = y.

Definition is_integer_dec (y : R) : {is_integer y} + {~ is_integer y} :=
  Req_dec_T (IZR (Int_part y)) y.

(** [x ** y] on floats (CPython's [float_pow]): anything to the power zero is
    one; zero to a negative power raises; a negative base needs an integral
    exponent. *)
Definition float_pow (x y : R) : outcome R :=
  if Req_dec_T y 0 then Return 1
  else if Req_dec_T x 0 then
    if Rlt_dec y 0 then Raise ZeroDivisionError else Return 0
  else if Rlt_dec 0 x then Return (Rpower x y)
  else if is_integer_dec y then Return (powerRZ x (Int_part y))
  else NonReal.

(** [x / y] on floats. *)
Definition float_div (x y : R) : outcome R :=
  if Req_dec_T y 0 then Raise ZeroDivisionError else Return (x / y).

(** [l[i]] on a list or array, for a non-negative index. *)
Definition getitem {A : Type} (l : list A) (i : nat) : outcome A :=
  match nth_error l i with
  | Some a => Return a
  | None => Raise IndexError
  end.

(** [l[i] = v] on an array, for a non-negative index. *)
Fixpoint setitem {A : Type} (l : list A) (i : nat) (v : A) : outcome (list A) :=
  match l, i with
  | [], _ => Raise IndexError
  | _ :: t, O => Return (v :: t)
  | h :: t, S j => obind (setitem t j v) (fun t' => Return (h :: t'))
  end.

(** ** The parameter bundle and the model object *)

Record Par : Type := mkPar {
  rho : R;
  nu : R;
  kappa : R;
  beta : R;
  r : R;
  Delta : R;
  P_low : R;
  P_high : R
}.

Record ConsumptionSavingModel : Type := mkModel {
  par : Par;
  sim_m1 : list R;
  data_m1 : list R
}.

(** [ConsumptionSavingModel(par)]: the constructor stores the bundle and two
    empty lists. *)
Definition __init__ (p : Par) : ConsumptionSavingModel :=
  {| par := p; sim_m1 := []; data_m1 := [] |}.

(** [self.sim_m1 = draws]: the assignment a caller makes before calling
    [simulate()]. *)
Definition set_sim_m1 (self : ConsumptionSavingModel) (draws : list R)
    : ConsumptionSavingModel :=
  {| par := par self; sim_m1 := draws; data_m1 := data_m1 self |}.

(** ** Utility, bequest and the values of choice *)

Section Evaluator.
Variable self : ConsumptionSavingModel.
Local Open Scope outcome_scope.

(** [c**(1-self.par.rho)/(1-self.par.rho)] *)
Definition utility (c : R) : outcome R :=
  p <- float_pow c (1 - rho (par self)) ;;
  float_div p (1 - rho (par self)).

(** [self.par.nu*(m-c+self.par.kappa)**(1-self.par.rho)/(1-self.par.rho)] *)
Definition bequest (m c : R) : outcome R :=
  p <- float_pow (m - c + kappa (par self)) (1 - rho (par self)) ;;
  float_div (nu (par self) * p) (1 - rho (par self)).

(** [self.utility(c2) + self.bequest(m2,c2)] *)
Definition v2 (c2 m2 : R) : outcome R :=
  u <- utility c2 ;;
  b <- bequest m2 c2 ;;
  Return (u + b).

(** The post-decision value in period 1; [v2_interp] is any callable taking
    a list of points to an array of values. *)
Definition v1 (c1 m1 : R) (v2_interp : list R -> outcome (list R)) : outcome R :=
  let m2_low := (1 + r (par self)) * (m1 - c1) + 1 - Delta (par self) in
  a_low <- v2_interp [m2_low] ;;
  v2_low <- getitem a_low 0 ;;
  let m2_high := (1 + r (par self)) * (m1 - c1) + 1 + Delta (par self) in
  a_high <- v2_interp [m2_high] ;;
  v2_high <- getitem a_high 0 ;;
  let expected_v2 := P_low (par self) * v2_low + P_high (par self) * v2_high in
  u <- utility c1 ;;
  Return (u + beta (par self) * expected_v2).

End Evaluator.

(** ** numpy *)

Module np.

(** [np.linspace(start, stop, num)]: [num] evenly spaced points,
    [arange(num) * step + start] with [step = (stop - start) / (num - 1)].
    (numpy then overwrites the last point with [stop], which is the same
    real number.) *)
Definition linspace (start stop : R) (num : nat) : list R :=
  let step := (stop - start) / INR (num - 1) in
  map (fun i => INR i * step + start) (seq 0 num).

(** [np.empty(n)]: an array of [n] cells of unspecified content, here
    zeros; the solvers overwrite every cell. *)
Definition empty (n : nat) : list R := repeat 0 n.

(** [np.searchsorted(a, x)] on an ascending array: the first position
    whose entry is not below [x]. *)
Fixpoint searchsorted (a : list R) (x : R) : nat :=
  match a with
  | [] => O
  | h :: t => if Rlt_dec h x then S (searchsorted t x) else O
  end.

(** [a[i]] for an integer index, negative indices counting from the end. *)
Definition item (a : list R) (i : Z) : R :=
  nth (Z.to_nat (if (i <? 0)%Z then Z.of_nat (length a) + i else i)) a 0.

End np.

(** [enumerate(l)] *)
Definition enumerate {A : Type} (l : list A) : list (nat * A) :=
  combine (seq 0 (length l)) l.

(** ** scipy.interpolate *)

Module interpolate.

(** A one-dimensional [RegularGridInterpolator] with the default linear
    method. *)
Record RegularGridInterpolator : Type := mkRGI {
  grid : list R;
  values : list R;
  bounds_error : bool;
  fill_value : option R
}.

(** [np.all(np.diff(p) > 0.)] *)
Fixpoint strictly_ascending (p : list R) : bool :=
  match p with
  | [] => true
  | a :: t =>
      match t with
      | [] => true
      | b :: _ => if Rlt_dec a b then strictly_ascending t else false
      end
  end.

(** Modelled from the spec: scipy's [RegularGridInterpolator] is an external
    library and not part of the sources. The constructor
    [RegularGridInterpolator(points, values, bounds_error, fill_value)]
    takes one grid per dimension; with a one-dimensional array of values
    there is one grid, which must be strictly ascending and as long as the
    array of values, else it raises [ValueError]. *)
Definition new (points : list (list R)) (vals : list R)
    (bounds_error : bool) (fill_value : option R)
    : outcome RegularGridInterpolator :=
  match points with
  | [p] =>
      if negb (strictly_ascending p) then Raise ValueError
      else if negb (length vals =? length p)%nat then Raise ValueError
      else Return (mkRGI p vals bounds_error fill_value)
  | _ => Raise ValueError
  end.

(** [x < grid[0]] or [x > grid[-1]] *)
Definition out_of_bounds (g : list R) (x : R) : bool :=
  if Rlt_dec x (np.item g 0) then true
  else if Rlt_dec (np.item g (-1)) x then true
  else false.

(** The cell used for [x]: [searchsorted(grid, x) - 1], moved into
    [0 .. len(grid) - 2]. *)
Definition find_index (g : list R) (x : R) : Z :=
  let i := (Z.of_nat (np.searchsorted g x) - 1)%Z in
  let i := if (i <? 0)%Z then 0%Z else i in
  if (i >? Z.of_nat (length g) - 2)%Z then (Z.of_nat (length g) - 2)%Z else i.

(** Modelled from the spec: the linear interpolant of the cell chosen by
    [find_index]; outside the grid this is the linear extension of the
    first or of the last cell. *)
Definition evaluate_linear (g vals : list R) (x : R) : R :=
  let i := find_index g x in
  let norm_distance := (x - np.item g i) / (np.item g (i + 1) - np.item g i) in
  np.item vals i * (1 - norm_distance) + np.item vals (i + 1) * norm_distance.

(** The value of the interpolator at one point, when the call does not
    raise: [fill_value] outside the grid when one is given and
    [bounds_error] is off, the linear interpolant or extrapolant otherwise. *)
Definition eval (f : RegularGridInterpolator) (x : R) : R :=
  match fill_value f with
  | Some v =>
      if negb (bounds_error f) && out_of_bounds (grid f) x then v
      else evaluate_linear (grid f) (values f) x
  | None => evaluate_linear (grid f) (values f) x
  end.

(** Modelled from the spec: [f(xi)] for a list of scalar points; raises
    [ValueError] on a point outside the grid when [bounds_error] is set,
    and otherwise returns one value per point, in order. *)
Definition call (f : RegularGridInterpolator) (xi : list R) : outcome (list R) :=
  if bounds_error f && existsb (out_of_bounds (grid f)) xi then Raise ValueError
  else Return (map (eval f) xi).

End interpolate.

(** ** scipy.optimize *)

Module optimize.

(** The fields of [OptimizeResult] the model reads: [result.x] (an array,
    one entry per variable) and [result.fun]. *)
Record OptimizeResult : Type := mkResult {
  x : list R;
  fun_ : R
}.

End optimize.

(** ** Calls into scipy, in program order *)

Inductive event : Type :=
| EvMinimize (x0 : list R) (bounds : list (R * R))
| EvInterpolator (points : list (list R)) (vals : list R)
    (bounds_error : bool) (fill_value : option R).

Definition is_minimize (e : event) : bool :=
  match e with
  | EvMinimize _ _ => true
  | EvInterpolator _ _ _ _ => false
  end.

(** A method run: the calls it made, and how it ended. *)
Definition M (A : Type) : Type := (list event * outcome A)%type.

Definition mret {A : Type} (a : A) : M A := ([], Return a).

Definition mbind {A B : Type} (m : M A) (k : A -> M B) : M B :=
  match snd m with
  | Return a => (fst m ++ fst (k a), snd (k a))
  | Raise e => (fst m, Raise e)
  | NonReal => (fst m, NonReal)
  end.

(** A pure expression inside a method. *)
Definition lift {A : Type} (o : outcome A) : M A := ([], o).

Definition trace {A : Type} (m : M A) : list event := fst m.
Definition result {A : Type} (m : M A) : outcome A := snd m.

Declare Scope method_scope.
Delimit Scope method_scope with method.
Notation "x <- c ;; k" := (mbind c (fun x => k))
  (at level 61, c at next level, right associativity) : method_scope.
Notation "' pat <- c ;; k" := (mbind c (fun x => match x with pat => k end))
  (at level 61, pat pattern, c at next level, right associativity) : method_scope.

(** ** The solvers and the simulator *)

(** [a[i] = v] where [v] is an array: numpy stores its only entry, and
    raises [ValueError] when [v] does not have exactly one. *)
Definition setitem_array (a : list R) (i : nat) (v : list R) : outcome (list R) :=
  match v with
  | [s] => setitem a i s
  | _ => Raise ValueError
  end.

Section Solver.

(** [optimize.minimize(fun, x0, method='L-BFGS-B', bounds=bounds)], the
    optimizer of scipy: a parameter of the model. *)
Variable minimize :
  (list R -> outcome R) -> list R -> list (R * R) -> outcome optimize.OptimizeResult.

Variable self : ConsumptionSavingModel.

Local Open Scope method_scope.

Definition call_minimize (f : list R -> outcome R) (x0 : list R)
    (bounds : list (R * R)) : M optimize.OptimizeResult :=
  ([EvMinimize x0 bounds], minimize f x0 bounds).

Definition new_interpolator (points : list (list R)) (vals : list R)
    (bounds_error : bool) (fill_value : option R)
    : M interpolate.RegularGridInterpolator :=
  ([EvInterpolator points vals bounds_error fill_value],
   interpolate.new points vals bounds_error fill_value).

(** The objective of period 2 at [m2]: [lambda x: -self.v2(x[0],m2)] *)
Definition obj_2 (m2 : R) (x : list R) : outcome R :=
  (c <- getitem x 0 ;; v <- v2 self c m2 ;; Return (- v))%outcome.

(** The loop of [solve_period_2] over [enumerate(m2s)], threading the two
    arrays it fills. *)
Fixpoint solve_period_2_loop (its : list (nat * R)) (v2s c2s : list R)
    : M (list R * list R) :=
  match its with
  | [] => mret (v2s, c2s)
  | (i, m2) :: rest =>
      let x0 := m2 / 2 in
      result <- call_minimize (obj_2 m2) [x0] [(1e-8, m2)] ;;
      v2s' <- lift (setitem v2s i (- optimize.fun_ result)) ;;
      c2s' <- lift (setitem_array c2s i (optimize.x result)) ;;
      solve_period_2_loop rest v2s' c2s'
  end.

Definition solve_period_2 : M (list R * list R * list R) :=
  let m2s := np.linspace 1e-4 5 500 in
  let v2s := np.empty 500 in
  let c2s := np.empty 500 in
  '(v2s, c2s) <- solve_period_2_loop (enumerate m2s) v2s c2s ;;
  mret (m2s, v2s, c2s).

(** The objective of period 1 at [m1]:
    [def obj(x): return -self.v1(x[0], m1, v2_interp)] *)
Definition obj_1 (v2_interp : list R -> outcome (list R)) (m1 : R) (x : list R)
    : outcome R :=
  (c <- getitem x 0 ;; v <- v1 self c m1 v2_interp ;; Return (- v))%outcome.

(** The upper bound on consumption in period 1. *)
Definition upper_1 (m1 : R) : R :=
  m1 + (1 - Delta (par self)) / (1 + r (par self)).

Fixpoint solve_period_1_loop (v2_interp : list R -> outcome (list R))
    (its : list (nat * R)) (v1s c1s : list R) : M (list R * list R) :=
  match its with
  | [] => mret (v1s, c1s)
  | (i, m1) :: rest =>
      let x0 := m1 / 2 in
      result <- call_minimize (obj_1 v2_interp m1) [x0] [(1e-12, upper_1 m1)] ;;
      v1s' <- lift (setitem v1s i (- optimize.fun_ result)) ;;
      c1s' <- lift (s <- getitem (optimize.x result) 0 ;; setitem c1s i s)%outcome ;;
      solve_period_1_loop v2_interp rest v1s' c1s'
  end.

Definition solve_period_1 (v2_interp : list R -> outcome (list R))
    : M (list R * list R * list R) :=
  let m1s := np.linspace 1e-8 4 100 in
  let v1s := np.empty 100 in
  let c1s := np.empty 100 in
  '(v1s, c1s) <- solve_period_1_loop v2_interp (enumerate m1s) v1s c1s ;;
  mret (m1s, v1s, c1s).

Definition solve : M (list R * list R * list R * list R * list R * list R) :=
  (* a. solve period 2 *)
  '(m2, v2, c2) <- solve_period_2 ;;
  (* b. construct interpolator *)
  v2_interp <- new_interpolator [m2] v2 false None ;;
  (* b. solve period 1 *)
  '(m1, v1, c1) <- solve_period_1 (interpolate.call v2_interp) ;;
  mret (m1, v1, c1, m2, v2, c2).

Definition simulate : M (list R) :=
  (* a. solve the model at current parameters *)
  '(m1, v1, c1, m2, v2, c2) <- solve ;;
  (* b. construct interpolaters *)
  c1_interp1 <- new_interpolator [m1] c1 false None ;;
  (* c. sim period 1 based on draws of initial m and solution *)
  sim_c1 <- lift (interpolate.call c1_interp1 (sim_m1 self)) ;;
  mret sim_c1.

End Solver.

(** ** Parameter bundles and optimizers *)

(** The admissible parameter bundles of the data model. *)
Definition valid_par (p : Par) : Prop :=
  rho p <> 1 /\ 0 <= nu p /\ 0 < kappa p /\ 0 < beta p <= 1 /\ -1 < r p /\
  0 <= Delta p <= 1 /\ 0 <= P_low p <= 1 /\ 0 <= P_high p <= 1 /\
  P_low p + P_high p = 1.

(** What the two sweeps use of a bundle: with it every objective is defined
    on its box and every box contains the initial guess. *)
Definition well_posed (p : Par) : Prop :=
  rho p <> 1 /\ 0 < kappa p /\ -1 < r p /\ 0 <= Delta p <= 1.

(** What the solvers rely on from a bound-constrained optimizer, for a
    problem in one variable: on a box that contains the initial guess and on
    which the objective is defined it returns a result, and the point it
    returns lies in the box. *)
Record box_optimizer
    (minimize : (list R -> outcome R) -> list R -> list (R * R) ->
                outcome optimize.OptimizeResult) : Prop := {
  minimize_runs : forall f x0 lo hi,
    lo <= x0 <= hi ->
    (forall x, lo <= x <= hi -> returns (f [x])) ->
    returns (minimize f [x0] [(lo, hi)]);
  minimize_in_bounds : forall f x0 lo hi res,
    minimize f [x0] [(lo, hi)] = Return res ->
    exists x, optimize.x res = [x] /\ lo <= x <= hi
}.

(** [min(max(x, lo), hi)] *)
Definition clip (lo hi x : R) : R :=
  if Rlt_dec x lo then lo else if Rlt_dec hi x then hi else x.

(** The simplest such optimizer: it evaluates the objective at the initial
    guess, moved into the box, and stops there. *)
Definition minimize_start (f : list R -> outcome R) (x0 : list R)
    (bounds : list (R * R)) : outcome optimize.OptimizeResult :=
  match x0, bounds with
  | [x], [(lo, hi)] =>
      if Rlt_dec hi lo then Raise ValueError
      else obind (f [clip lo hi x])
             (fun v => Return (optimize.mkResult [clip lo hi x] v))
  | _, _ => Raise ValueError
  end.

(** The bundle of the end-to-end scenario:
    [rho=2, nu=0.1, kappa=0.5, beta=0.95, r=0.02, Delta=0.5, P_low=P_high=0.5]. *)
Definition par_example : Par :=
  mkPar 2 0.1 0.5 0.95 0.02 0.5 0.5 0.5.

(** A bundle whose probabilities sum to two. *)
Definition par_unnormalised : Par :=
  mkPar 2 0.1 0.5 0.95 0.02 0.5 1 1.

(** ** The grids and the calls of a solve *)

(** The grids of [solve_period_2] and of [solve_period_1]. *)
Definition m2_grid : list R := np.linspace 1e-4 5 500.
Definition m1_grid : list R := np.linspace 1e-8 4 100.

(** The call to the optimizer made for one point of each grid. *)
Definition ev_2 (it : nat * R) : event :=
  EvMinimize [snd it / 2] [(1e-8, snd it)].

Definition ev_1 (self : ConsumptionSavingModel) (it : nat * R) : event :=
  EvMinimize [snd it / 2] [(1e-12, upper_1 self (snd it))].

(** The calls [solve] makes, given the value array of period 2. *)
Definition solve_trace (self : ConsumptionSavingModel) (v2s : list R) : list event :=
  map ev_2 (enumerate m2_grid) ++
  [EvInterpolator [m2_grid] v2s false None] ++
  map (ev_1 self) (enumerate m1_grid).

(** The first thing [solve] does, for every bundle and optimizer: the call
    to the optimizer for the first point of the period-2 grid. *)
Definition first_call : event :=
  EvMinimize [nth 0 m2_grid 0 / 2] [(1e-8, nth 0 m2_grid 0)].

(** ** Interpolators *)

(** Callables that answer every one-point query with one value. *)
Definition pointwise (v2_interp : list R -> outcome (list R)) : Prop :=
  forall x, exists v, v2_interp [x] = Return [v].

(** The straight line through [(x0, y0)] and [(x1, y1)], at [x]. *)
Definition line (x0 y0 x1 y1 x : R) : R :=
  y0 + (x - x0) * ((y1 - y0) / (x1 - x0)).

(** An interpolator that answers outside its grid with the linear extension
    of its first cell (to the left) or of its last cell (to the right). *)
Definition extrapolates (f : interpolate.RegularGridInterpolator) : Prop :=
  let g := interpolate.grid f in
  let v := interpolate.values f in
  let n := length g in
  (forall x, x < nth 0 g 0 ->
     interpolate.call f [x] =
     Return [line (nth 0 g 0) (nth 0 v 0) (nth 1 g 0) (nth 1 v 0) x]) /\
  (forall x, nth (n - 1) g 0 < x ->
     interpolate.call f [x] =
     Return [line (nth (n - 2) g 0) (nth (n - 2) v 0)
                  (nth (n - 1) g 0) (nth (n - 1) v 0) x]).

(** ** More on optimizers and sweeps *)

(** An optimizer whose [result.fun] is the objective at [result.x]. *)
Definition value_reporting
    (minimize : (list R -> outcome R) -> list R -> list (R * R) ->
                outcome optimize.OptimizeResult) : Prop :=
  forall f x0 bounds res,
    minimize f x0 bounds = Return res ->
    f (optimize.x res) = Return (optimize.fun_ res).

(** An optimizer that raises whatever it is given. *)
Definition minimize_raising (e : exn) (f : list R -> outcome R) (x0 : list R)
    (bounds : list (R * R)) : outcome optimize.OptimizeResult :=
  Raise e.

(** The shape the two sweeps share: per grid point, one optimizer call on
    the box [(lo, hi m)] from the initial guess [m / 2], then the two stores. *)
Fixpoint sweep
    (minimize : (list R -> outcome R) -> list R -> list (R * R) ->
                outcome optimize.OptimizeResult)
    (obj : R -> list R -> outcome R) (lo : R) (hi : R -> R)
    (store : list R -> nat -> list R -> outcome (list R))
    (its : list (nat * R)) (vs cs : list R) : M (list R * list R) :=
  match its with
  | [] => mret (vs, cs)
  | (i, m) :: rest =>
      mbind (call_minimize minimize (obj m) [m / 2] [(lo, hi m)]) (fun res =>
      mbind (lift (setitem vs i (- optimize.fun_ res))) (fun vs' =>
      mbind (lift (store cs i (optimize.x res))) (fun cs' =>
      sweep minimize obj lo hi store rest vs' cs')))
  end.

(** The call a sweep makes for one grid point. *)
Definition ev (lo : R) (hi : R -> R) (it : nat * R) : event :=
  EvMinimize [snd it / 2] [(lo, hi (snd it))].

(** The optimizer returns a one-entry point for the problem of [m]. *)
Definition solved_at
    (minimize : (list R -> outcome R) -> list R -> list (R * R) ->
                outcome optimize.OptimizeResult)
    (obj : R -> list R -> outcome R) (lo : R) (hi : R -> R) (m : R) : Prop :=
  exists res x,
    minimize (obj m) [m / 2] [(lo, hi m)] = Return res /\ optimize.x res = [x].

(** [c1s[i] = result.x[0]] *)
Definition store_1 (cs : list R) (i : nat) (x : list R) : outcome (list R) :=
  obind (getitem x 0) (fun s => setitem cs i s).

(** A bundle with [Delta] above one. *)
Definition par_wide : Par :=
  mkPar 2 0.1 0.5 0.95 0.02 2 0.5 0.5.

(** * Basic facts *)

Lemma valid_par_example : valid_par par_example.
Proof. unfold valid_par, par_example; simpl. lra. Qed.

Lemma valid_par_well_posed p : valid_par p -> well_posed p.
Proof. unfold valid_par, well_posed. tauto. Qed.

Lemma clip_in_box lo hi x : lo <= hi -> lo <= clip lo hi x <= hi.
Proof.
  intros Hbox. unfold clip.
  destruct (Rlt_dec x lo); [lra|].
  destruct (Rlt_dec hi x); lra.
Qed.

Lemma box_optimizer_minimize_start : box_optimizer minimize_start.
Proof.
  split.
  - intros f x0 lo hi Hx0 Hf. unfold minimize_start.
    destruct (Rlt_dec hi lo) as [Hlt|_]; [lra|].
    destruct (Hf (clip lo hi x0)) as [v Hv].
    + apply clip_in_box; lra.
    + rewrite Hv. simpl. eexists; reflexivity.
  - intros f x0 lo hi res. unfold minimize_start.
    destruct (Rlt_dec hi lo) as [|Hbox]; [discriminate|].
    destruct (f [clip lo hi x0]) as [v| |]; simpl; try discriminate.
    intros [= <-]. exists (clip lo hi x0). split; [reflexivity|].
    apply clip_in_box; lra.
Qed.

(** ** Powers, divisions, utility and bequest *)

Lemma float_pow_pos x y : 0 < x -> float_pow x y = Return (Rpower x y).
Proof.
  intros Hx. unfold float_pow.
  destruct (Req_dec_T y 0) as [->|Hy].
  - unfold Rpower. now rewrite Rmult_0_l, exp_0.
  - destruct (Req_dec_T x 0); [lra|].
    destruct (Rlt_dec 0 x); [reflexivity|lra].
Qed.

Lemma float_div_nonzero x y : y <> 0 -> float_div x y = Return (x / y).
Proof. intros Hy. unfold float_div. now destruct (Req_dec_T y 0). Qed.

Lemma utility_pos self c :
  0 < c -> rho (par self) <> 1 ->
  utility self c = Return (Rpower c (1 - rho (par self)) / (1 - rho (par self))).
Proof.
  intros Hc Hrho. unfold utility.
  rewrite float_pow_pos by assumption. simpl.
  apply float_div_nonzero. lra.
Qed.

Lemma bequest_pos self m c :
  0 < m - c + kappa (par self) -> rho (par self) <> 1 ->
  bequest self m c =
  Return (nu (par self) * Rpower (m - c + kappa (par self)) (1 - rho (par self))
          / (1 - rho (par self))).
Proof.
  intros Hc Hrho. unfold bequest.
  rewrite float_pow_pos by assumption. simpl.
  apply float_div_nonzero. lra.
Qed.

Lemma v2_returns self c2 m2 :
  rho (par self) <> 1 -> 0 < kappa (par self) -> 0 < c2 <= m2 ->
  returns (v2 self c2 m2).
Proof.
  intros Hrho Hk Hc. unfold v2.
  rewrite utility_pos by lra. simpl.
  rewrite bequest_pos by lra. simpl.
  eexists; reflexivity.
Qed.

(** ** Arrays *)

Lemma setitem_spec {A : Type} (l : list A) (i : nat) (v d : A) :
  (i < length l)%nat ->
  exists l', setitem l i v = Return l' /\ length l' = length l /\
             nth i l' d = v /\ forall j, j <> i -> nth j l' d = nth j l d.
Proof.
  revert i. induction l as [|h t IH]; intros i Hi; simpl in Hi; [lia|].
  destruct i as [|i].
  - exists (v :: t). repeat split. intros [|j] Hj; [congruence|reflexivity].
  - destruct (IH i ltac:(lia)) as (t' & Hset & Hlen & Hnth & Hother).
    exists (h :: t'). simpl. rewrite Hset. simpl. repeat split; auto.
    intros [|j] Hj; [reflexivity|]. apply Hother. congruence.
Qed.

Lemma getitem_singleton {A : Type} (a : A) : getitem [a] 0 = Return a.
Proof. reflexivity. Qed.

Lemma empty_length n : length (np.empty n) = n.
Proof. apply repeat_length. Qed.

Lemma enumerate_length {A : Type} (l : list A) : length (enumerate l) = length l.
Proof. unfold enumerate. rewrite length_combine, length_seq. lia. Qed.

Lemma enumerate_fst {A : Type} (l : list A) :
  map fst (enumerate l) = seq 0 (length l).
Proof.
  unfold enumerate. generalize 0%nat.
  induction l as [|a l IH]; intros k; simpl; [reflexivity|].
  now rewrite IH.
Qed.

Lemma enumerate_snd {A : Type} (l : list A) : map snd (enumerate l) = l.
Proof.
  unfold enumerate. generalize 0%nat.
  induction l as [|a l IH]; intros k; simpl; [reflexivity|].
  now rewrite IH.
Qed.

Lemma enumerate_In {A : Type} (l : list A) (i : nat) (a d : A) :
  In (i, a) (enumerate l) -> (i < length l)%nat /\ nth i l d = a.
Proof.
  unfold enumerate.
  assert (H : forall k, In (i, a) (combine (seq k (length l)) l) ->
                        (k <= i < k + length l)%nat /\ nth (i - k) l d = a).
  { induction l as [|h t IH]; intros k; simpl; [tauto|].
    intros [[= <- <-]|Hin].
    - rewrite Nat.sub_diag. split; [lia|reflexivity].
    - destruct (IH _ Hin) as [Hk Hnth]. split; [lia|].
      replace (i - k)%nat with (S (i - S k)) by lia. exact Hnth. }
  intros Hin. destruct (H _ Hin) as [Hk Hnth].
  rewrite Nat.sub_0_r in Hnth. split; [lia|exact Hnth].
Qed.

Lemma In_enumerate {A : Type} (l : list A) (i : nat) (d : A) :
  (i < length l)%nat -> In (i, nth i l d) (enumerate l).
Proof.
  unfold enumerate.
  assert (H : forall k j, (j < length l)%nat ->
                          In ((k + j)%nat, nth j l d) (combine (seq k (length l)) l)).
  { induction l as [|h t IH]; intros k j Hj; simpl in *; [lia|].
    destruct j as [|j].
    - left. f_equal. lia.
    - right. replace (k + S j)%nat with (S k + j)%nat by lia. apply IH. lia. }
  intros Hi. exact (H 0%nat i Hi).
Qed.

(** ** The grids *)

Lemma linspace_length start stop num : length (np.linspace start stop num) = num.
Proof. unfold np.linspace. now rewrite length_map, length_seq. Qed.

Lemma nth_map_seq (f : nat -> R) n i d :
  (i < n)%nat -> nth i (map f (seq 0 n)) d = f i.
Proof.
  intros Hi. rewrite nth_indep with (d' := f 0%nat)
    by now rewrite length_map, length_seq.
  rewrite map_nth, seq_nth by assumption. reflexivity.
Qed.

Lemma linspace_nth start stop num i :
  (i < num)%nat ->
  nth i (np.linspace start stop num) 0 =
  INR i * ((stop - start) / INR (num - 1)) + start.
Proof.
  intros Hi. unfold np.linspace. now rewrite nth_map_seq.
Qed.

Lemma linspace_step_pos start stop num :
  start < stop -> (2 <= num)%nat -> 0 < (stop - start) / INR (num - 1).
Proof.
  intros Hlt Hnum. apply Rdiv_lt_0_compat; [lra|].
  apply lt_0_INR. lia.
Qed.

Lemma linspace_lower start stop num m :
  start < stop -> (2 <= num)%nat ->
  In m (np.linspace start stop num) -> start <= m.
Proof.
  intros Hlt Hnum Hin. unfold np.linspace in Hin.
  apply in_map_iff in Hin. destruct Hin as (i & <- & _).
  pose proof (linspace_step_pos start stop num Hlt Hnum) as Hstep.
  pose proof (pos_INR i) as Hi. nra.
Qed.

Lemma strictly_ascending_map_seq (f : nat -> R) n k :
  (forall i, f i < f (S i)) ->
  interpolate.strictly_ascending (map f (seq k n)) = true.
Proof.
  intros Hf. revert k. induction n as [|n IH]; intros k; [reflexivity|].
  specialize (IH (S k)). simpl in *.
  destruct n as [|n]; [reflexivity|]. simpl in *.
  destruct (Rlt_dec (f k) (f (S k))) as [_|Hn]; [exact IH|].
  now destruct Hn.
Qed.

Lemma linspace_strictly_ascending start stop num :
  start < stop -> (2 <= num)%nat ->
  interpolate.strictly_ascending (np.linspace start stop num) = true.
Proof.
  intros Hlt Hnum. unfold np.linspace.
  apply strictly_ascending_map_seq. intros i.
  pose proof (linspace_step_pos start stop num Hlt Hnum) as Hstep.
  rewrite S_INR. nra.
Qed.

(** ** The method monad *)

Lemma mbind_Return {A B : Type} (m : M A) (k : A -> M B) t a :
  m = (t, Return a) -> mbind m k = (t ++ trace (k a), result (k a)).
Proof. intros ->. reflexivity. Qed.

Lemma mbind_lift_Return {A B : Type} (o : outcome A) (k : A -> M B) a :
  o = Return a -> mbind (lift o) k = k a.
Proof. intros ->. unfold mbind, lift. simpl. now destruct (k a). Qed.

(** ** The two grid sweeps *)

Section Sweeps.

Variable minimize :
  (list R -> outcome R) -> list R -> list (R * R) -> outcome optimize.OptimizeResult.
Hypothesis Hopt : box_optimizer minimize.

Variable self : ConsumptionSavingModel.
Hypothesis Hrho : rho (par self) <> 1.
Hypothesis Hkappa : 0 < kappa (par self).

Lemma obj_2_returns m2 x : 1e-8 <= x <= m2 -> returns (obj_2 self m2 [x]).
Proof.
  intros Hx. unfold obj_2. simpl.
  destruct (v2_returns self x m2 Hrho Hkappa) as [v Hv]; [lra|].
  rewrite Hv. simpl. eexists; reflexivity.
Qed.

Lemma solve_period_2_loop_spec its :
  forall v2s c2s,
    length v2s = length c2s ->
    (forall i m, In (i, m) its -> (i < length c2s)%nat /\ 1e-4 <= m) ->
    exists v' c',
      solve_period_2_loop minimize self its v2s c2s =
        (map ev_2 its, Return (v', c')) /\
      length v' = length v2s /\ length c' = length c2s /\
      (forall j, ~ In j (map fst its) -> nth j c' 0 = nth j c2s 0) /\
      (NoDup (map fst its) ->
       forall i m, In (i, m) its -> 1e-8 <= nth i c' 0 <= m).
Proof.
  induction its as [|[i m] rest IH]; intros v2s c2s Hlen Hits.
  - exists v2s, c2s. simpl. repeat split; auto; contradiction.
  - destruct (Hits i m (or_introl eq_refl)) as [Hi Hm].
    destruct (minimize_runs _ Hopt (obj_2 self m) (m / 2) 1e-8 m) as [res Hres];
      [lra | apply obj_2_returns |].
    destruct (minimize_in_bounds _ Hopt _ _ _ _ _ Hres) as (xv & Hx & Hbox).
    destruct (setitem_spec v2s i (- optimize.fun_ res) 0) as (v1s & Hv1 & Hlv1 & _);
      [lia|].
    destruct (setitem_spec c2s i xv 0) as (c1s & Hc1 & Hlc1 & Hnth & Hother);
      [lia|].
    destruct (IH v1s c1s) as (v' & c' & Hloop & Hlv & Hlc & Hkeep & Hin).
    { lia. }
    { intros j m' Hj. rewrite Hlc1. apply Hits. now right. }
    exists v', c'. split; [|split; [lia|split; [lia|split]]].
    + cbn [solve_period_2_loop].
      rewrite (mbind_Return _ _ [ev_2 (i, m)] res)
        by (unfold call_minimize, ev_2; simpl; now rewrite Hres).
      rewrite (mbind_lift_Return _ _ v1s Hv1).
      rewrite (mbind_lift_Return _ _ c1s)
        by (rewrite Hx; exact Hc1).
      rewrite Hloop. reflexivity.
    + intros j Hj. simpl in Hj. rewrite Hkeep by tauto.
      apply Hother. intros ->. tauto.
    + intros Hnd j m' Hj. simpl in Hnd.
      apply NoDup_cons_iff in Hnd as [Hnotin Hnd].
      destruct Hj as [[= <- <-]|Hj].
      * rewrite Hkeep by exact Hnotin. rewrite Hnth. lra.
      * now apply Hin.
Qed.

Hypothesis Hr : -1 < r (par self).
Hypothesis HDelta : 0 <= Delta (par self) <= 1.

Lemma upper_1_ge m1 : m1 <= upper_1 self m1.
Proof.
  unfold upper_1.
  assert (0 <= (1 - Delta (par self)) / (1 + r (par self))); [|lra].
  apply Rmult_le_pos; [lra|]. left. apply Rinv_0_lt_compat. lra.
Qed.

Lemma obj_1_returns v2_interp m1 x :
  pointwise v2_interp -> 1e-12 <= x -> returns (obj_1 self v2_interp m1 [x]).
Proof.
  intros Hv Hx. unfold obj_1, v1. simpl.
  destruct (Hv ((1 + r (par self)) * (m1 - x) + 1 - Delta (par self))) as [lo ->].
  simpl.
  destruct (Hv ((1 + r (par self)) * (m1 - x) + 1 + Delta (par self))) as [hi ->].
  simpl.
  rewrite utility_pos by lra. simpl. eexists; reflexivity.
Qed.

Lemma solve_period_1_loop_spec v2_interp its :
  pointwise v2_interp ->
  forall v1s c1s,
    length v1s = length c1s ->
    (forall i m, In (i, m) its -> (i < length c1s)%nat /\ 1e-8 <= m) ->
    exists v' c',
      solve_period_1_loop minimize self v2_interp its v1s c1s =
        (map (ev_1 self) its, Return (v', c')) /\
      length v' = length v1s /\ length c' = length c1s /\
      (forall j, ~ In j (map fst its) -> nth j c' 0 = nth j c1s 0) /\
      (NoDup (map fst its) ->
       forall i m, In (i, m) its -> 1e-12 <= nth i c' 0 <= upper_1 self m).
Proof.
  intros Hv.
  induction its as [|[i m] rest IH]; intros v1s c1s Hlen Hits.
  - exists v1s, c1s. simpl. repeat split; auto; contradiction.
  - destruct (Hits i m (or_introl eq_refl)) as [Hi Hm].
    pose proof (upper_1_ge m) as Hup.
    destruct (minimize_runs _ Hopt (obj_1 self v2_interp m) (m / 2) 1e-12
                (upper_1 self m)) as [res Hres];
      [lra | intros x Hx; apply obj_1_returns; [exact Hv|lra] |].
    destruct (minimize_in_bounds _ Hopt _ _ _ _ _ Hres) as (xv & Hx & Hbox).
    destruct (setitem_spec v1s i (- optimize.fun_ res) 0) as (w1s & Hw1 & Hlw1 & _);
      [lia|].
    destruct (setitem_spec c1s i xv 0) as (d1s & Hd1 & Hld1 & Hnth & Hother);
      [lia|].
    destruct (IH w1s d1s) as (v' & c' & Hloop & Hlv & Hlc & Hkeep & Hin).
    { lia. }
    { intros j m' Hj. rewrite Hld1. apply Hits. now right. }
    exists v', c'. split; [|split; [lia|split; [lia|split]]].
    + cbn [solve_period_1_loop].
      rewrite (mbind_Return _ _ [ev_1 self (i, m)] res)
        by (unfold call_minimize, ev_1; simpl; now rewrite Hres).
      rewrite (mbind_lift_Return _ _ w1s Hw1).
      rewrite (mbind_lift_Return _ _ d1s)
        by (rewrite Hx; exact Hd1).
      rewrite Hloop. reflexivity.
    + intros j Hj. simpl in Hj. rewrite Hkeep by tauto.
      apply Hother. intros ->. tauto.
    + intros Hnd j m' Hj. simpl in Hnd.
      apply NoDup_cons_iff in Hnd as [Hnotin Hnd].
      destruct Hj as [[= <- <-]|Hj].
      * rewrite Hkeep by exact Hnotin. rewrite Hnth. lra.
      * now apply Hin.
Qed.

End Sweeps.

(** ** The interpolator *)

Lemma interpolate_new_ok p vals be fv :
  interpolate.strictly_ascending p = true -> length vals = length p ->
  interpolate.new [p] vals be fv = Return (interpolate.mkRGI p vals be fv).
Proof.
  intros Hasc Hlen. unfold interpolate.new.
  rewrite Hasc, Hlen, Nat.eqb_refl. reflexivity.
Qed.

Lemma interpolate_call_extrapolating f xi :
  interpolate.bounds_error f = false ->
  interpolate.call f xi = Return (map (interpolate.eval f) xi).
Proof. intros Hbe. unfold interpolate.call. now rewrite Hbe. Qed.

Lemma interpolate_eval_no_fill f x :
  interpolate.fill_value f = None ->
  interpolate.eval f x =
  interpolate.evaluate_linear (interpolate.grid f) (interpolate.values f) x.
Proof. intros Hfv. unfold interpolate.eval. now rewrite Hfv. Qed.

Lemma pointwise_call f :
  interpolate.bounds_error f = false -> pointwise (interpolate.call f).
Proof.
  intros Hbe x. exists (interpolate.eval f x).
  now rewrite interpolate_call_extrapolating.
Qed.

(** ** The three grids of the solvers *)

Lemma m2_grid_length : length m2_grid = 500%nat.
Proof. apply linspace_length. Qed.

Lemma m1_grid_length : length m1_grid = 100%nat.
Proof. apply linspace_length. Qed.

Lemma m2_grid_ascending : interpolate.strictly_ascending m2_grid = true.
Proof. apply linspace_strictly_ascending; [lra|lia]. Qed.

Lemma m1_grid_ascending : interpolate.strictly_ascending m1_grid = true.
Proof. apply linspace_strictly_ascending; [lra|lia]. Qed.

Lemma enumerate_NoDup {A : Type} (l : list A) : NoDup (map fst (enumerate l)).
Proof. rewrite enumerate_fst. apply seq_NoDup. Qed.

Lemma solve_period_2_grid minimize self :
  solve_period_2 minimize self =
  mbind (solve_period_2_loop minimize self (enumerate m2_grid)
           (np.empty 500) (np.empty 500))
    (fun x => let '(v2s, c2s) := x in mret (m2_grid, v2s, c2s)).
Proof. reflexivity. Qed.

Lemma solve_period_1_grid minimize self v2_interp :
  solve_period_1 minimize self v2_interp =
  mbind (solve_period_1_loop minimize self v2_interp (enumerate m1_grid)
           (np.empty 100) (np.empty 100))
    (fun x => let '(v1s, c1s) := x in mret (m1_grid, v1s, c1s)).
Proof. reflexivity. Qed.

Lemma linspace_first start stop num :
  (1 <= num)%nat -> nth 0 (np.linspace start stop num) 0 = start.
Proof. intros Hnum. rewrite linspace_nth by lia. simpl. ring. Qed.

Lemma linspace_last start stop num :
  (2 <= num)%nat -> nth (num - 1) (np.linspace start stop num) 0 = stop.
Proof.
  intros Hnum. rewrite linspace_nth by lia. field.
  apply not_0_INR. lia.
Qed.


Lemma m1_grid_ends : nth 0 m1_grid 0 = 1e-8 /\ nth 99 m1_grid 0 = 4.
Proof.
  split; [apply linspace_first; lia|].
  apply (linspace_last 1e-8 4 100). lia.
Qed.

Lemma m2_grid_lower m : In m m2_grid -> 1e-4 <= m.
Proof. apply linspace_lower; [lra|lia]. Qed.

Lemma m1_grid_lower m : In m m1_grid -> 1e-8 <= m.
Proof. apply linspace_lower; [lra|lia]. Qed.

(** From here on the grids are used through the lemmas above only. *)
#[global] Opaque m1_grid m2_grid.

(** ** The solvers return *)

Section Solved.

Variable minimize :
  (list R -> outcome R) -> list R -> list (R * R) -> outcome optimize.OptimizeResult.
Hypothesis Hopt : box_optimizer minimize.

Variable self : ConsumptionSavingModel.
Hypothesis Hpar : well_posed (par self).

Lemma solve_period_2_spec :
  exists v2s c2s,
    solve_period_2 minimize self =
      (map ev_2 (enumerate m2_grid), Return (m2_grid, v2s, c2s)) /\
    length v2s = 500%nat /\ length c2s = 500%nat /\
    forall i, (i < 500)%nat -> 1e-8 <= nth i c2s 0 <= nth i m2_grid 0.
Proof.
  destruct Hpar as (Hrho & Hkappa & _).
  destruct (solve_period_2_loop_spec minimize Hopt self Hrho Hkappa
              (enumerate m2_grid) (np.empty 500) (np.empty 500))
    as (v2s & c2s & Hloop & Hlv & Hlc & _ & Hin).
  { now rewrite !empty_length. }
  { intros i m Him. apply (enumerate_In _ _ _ 0) in Him as [Hi <-].
    rewrite empty_length, <- m2_grid_length. split; [exact Hi|].
    apply (linspace_lower 1e-4 5 500); [lra|lia|].
    apply nth_In. exact Hi. }
  rewrite empty_length in Hlv, Hlc.
  exists v2s, c2s. split; [|split; [exact Hlv|split; [exact Hlc|]]].
  - rewrite solve_period_2_grid, Hloop. reflexivity.
  - intros i Hi.
    apply (Hin (enumerate_NoDup _)), In_enumerate. now rewrite m2_grid_length.
Qed.

Lemma solve_period_1_spec v2_interp :
  pointwise v2_interp ->
  exists v1s c1s,
    solve_period_1 minimize self v2_interp =
      (map (ev_1 self) (enumerate m1_grid), Return (m1_grid, v1s, c1s)) /\
    length v1s = 100%nat /\ length c1s = 100%nat /\
    forall i, (i < 100)%nat ->
              1e-12 <= nth i c1s 0 <= upper_1 self (nth i m1_grid 0).
Proof.
  intros Hv.
  destruct Hpar as (Hrho & _ & Hr & HDelta).
  destruct (solve_period_1_loop_spec minimize Hopt self Hrho Hr HDelta v2_interp
              (enumerate m1_grid) Hv (np.empty 100) (np.empty 100))
    as (v1s & c1s & Hloop & Hlv & Hlc & _ & Hin).
  { now rewrite !empty_length. }
  { intros i m Him. apply (enumerate_In _ _ _ 0) in Him as [Hi <-].
    rewrite empty_length, <- m1_grid_length. split; [exact Hi|].
    apply (linspace_lower 1e-8 4 100); [lra|lia|].
    apply nth_In. exact Hi. }
  rewrite empty_length in Hlv, Hlc.
  exists v1s, c1s. split; [|split; [exact Hlv|split; [exact Hlc|]]].
  - rewrite solve_period_1_grid, Hloop. reflexivity.
  - intros i Hi.
    apply (Hin (enumerate_NoDup _)), In_enumerate. now rewrite m1_grid_length.
Qed.

Lemma solve_spec :
  exists v2s c2s v1s c1s,
    let v2_interp := interpolate.mkRGI m2_grid v2s false None in
    solve_period_2 minimize self =
      (map ev_2 (enumerate m2_grid), Return (m2_grid, v2s, c2s)) /\
    interpolate.new [m2_grid] v2s false None = Return v2_interp /\
    solve_period_1 minimize self (interpolate.call v2_interp) =
      (map (ev_1 self) (enumerate m1_grid), Return (m1_grid, v1s, c1s)) /\
    solve minimize self =
      (solve_trace self v2s, Return (m1_grid, v1s, c1s, m2_grid, v2s, c2s)) /\
    (length v2s = 500%nat /\ length c2s = 500%nat) /\
    (length v1s = 100%nat /\ length c1s = 100%nat) /\
    (forall i, (i < 500)%nat -> 1e-8 <= nth i c2s 0 <= nth i m2_grid 0) /\
    (forall i, (i < 100)%nat ->
               1e-12 <= nth i c1s 0 <= upper_1 self (nth i m1_grid 0)).
Proof.
  destruct solve_period_2_spec as (v2s & c2s & H2 & Hlv2 & Hlc2 & Hb2).
  pose (v2_interp := interpolate.mkRGI m2_grid v2s false None).
  destruct (solve_period_1_spec (interpolate.call v2_interp))
    as (v1s & c1s & H1 & Hlv1 & Hlc1 & Hb1).
  { now apply pointwise_call. }
  assert (Hnew : interpolate.new [m2_grid] v2s false None = Return v2_interp).
  { apply interpolate_new_ok; [apply m2_grid_ascending|].
    now rewrite Hlv2, m2_grid_length. }
  exists v2s, c2s, v1s, c1s. cbv zeta. fold v2_interp.
  split; [exact H2|]. split; [exact Hnew|]. split; [exact H1|].
  split; [|tauto].
  unfold solve, solve_trace.
  rewrite (mbind_Return _ _ _ _ H2). cbv beta iota.
  rewrite (mbind_Return _ _ [EvInterpolator [m2_grid] v2s false None] v2_interp)
    by (unfold new_interpolator; now rewrite Hnew).
  rewrite (mbind_Return _ _ _ _ H1). cbv beta iota.
  unfold trace, result, mret. cbn [fst snd].
  now rewrite app_nil_r.
Qed.

Lemma simulate_spec :
  exists v2s c2s v1s c1s,
    let c1_interp1 := interpolate.mkRGI m1_grid c1s false None in
    solve minimize self =
      (solve_trace self v2s, Return (m1_grid, v1s, c1s, m2_grid, v2s, c2s)) /\
    interpolate.new [m1_grid] c1s false None = Return c1_interp1 /\
    simulate minimize self =
      (solve_trace self v2s ++ [EvInterpolator [m1_grid] c1s false None],
       Return (map (interpolate.eval c1_interp1) (sim_m1 self))).
Proof.
  destruct solve_spec
    as (v2s & c2s & v1s & c1s & _ & _ & _ & Hsolve & _ & [_ Hlc1] & _).
  pose (c1_interp1 := interpolate.mkRGI m1_grid c1s false None).
  assert (Hnew : interpolate.new [m1_grid] c1s false None = Return c1_interp1).
  { apply interpolate_new_ok; [apply m1_grid_ascending|].
    now rewrite Hlc1, m1_grid_length. }
  exists v2s, c2s, v1s, c1s. cbv zeta. fold c1_interp1.
  split; [exact Hsolve|]. split; [exact Hnew|].
  unfold simulate.
  rewrite (mbind_Return _ _ _ _ Hsolve). cbv beta iota.
  rewrite (mbind_Return _ _ [EvInterpolator [m1_grid] c1s false None] c1_interp1)
    by (unfold new_interpolator; now rewrite Hnew).
  rewrite (mbind_lift_Return _ _ (map (interpolate.eval c1_interp1) (sim_m1 self)))
    by now apply interpolate_call_extrapolating.
  unfold trace, result, mret. cbn [fst snd].
  now rewrite app_nil_r.
Qed.

End Solved.

(** * The period-1 objective *)

Local Open Scope outcome_scope.

(** C1. For every consumption [c1], cash-on-hand [m1] and callable [V2], the
    value of choice of period 1 is
    [utility(c1) + beta * (P_low * V2(m2_low) + P_high * V2(m2_high))] with
    [m2_low = (1+r)*(m1-c1) + (1-Delta)] and
    [m2_high = (1+r)*(m1-c1) + (1+Delta)]; the objective the solver hands to
    the optimizer is its negation. *)
Theorem v1_objective (self : ConsumptionSavingModel) (c1 m1 : R)
    (V2 : list R -> outcome (list R)) :
  v1 self c1 m1 V2 =
    (a_low <- V2 [(1 + r (par self)) * (m1 - c1) + (1 - Delta (par self))] ;;
     v2_low <- getitem a_low 0 ;;
     a_high <- V2 [(1 + r (par self)) * (m1 - c1) + (1 + Delta (par self))] ;;
     v2_high <- getitem a_high 0 ;;
     u <- utility self c1 ;;
     Return (u + beta (par self) *
                 (P_low (par self) * v2_low + P_high (par self) * v2_high))) /\
  obj_1 self V2 m1 [c1] = (v <- v1 self c1 m1 V2 ;; Return (- v)).
Proof.
  split; [|reflexivity].
  unfold v1.
  replace ((1 + r (par self)) * (m1 - c1) + 1 - Delta (par self))
    with ((1 + r (par self)) * (m1 - c1) + (1 - Delta (par self))) by ring.
  replace ((1 + r (par self)) * (m1 - c1) + 1 + Delta (par self))
    with ((1 + r (par self)) * (m1 - c1) + (1 + Delta (par self))) by ring.
  reflexivity.
Qed.

(** C6. With [Delta = 0] and [P_low + P_high = 1] the two income branches
    coincide, and the value of choice is
    [utility(c1) + beta * V2((1+r)*(m1-c1) + 1)], whatever the split of the
    probability mass. *)
Theorem v1_degenerate (self : ConsumptionSavingModel) (c1 m1 : R)
    (V2 : list R -> outcome (list R)) :
  Delta (par self) = 0 ->
  P_low (par self) + P_high (par self) = 1 ->
  let p := par self in
  (1 + r p) * (m1 - c1) + 1 - Delta p = (1 + r p) * (m1 - c1) + 1 + Delta p /\
  v1 self c1 m1 V2 =
    (a <- V2 [(1 + r p) * (m1 - c1) + 1] ;;
     v <- getitem a 0 ;;
     u <- utility self c1 ;;
     Return (u + beta p * v)).
Proof.
  intros HDelta HP. cbv zeta. split; [rewrite HDelta; ring|].
  unfold v1. rewrite HDelta.
  replace ((1 + r (par self)) * (m1 - c1) + 1 - 0)
    with ((1 + r (par self)) * (m1 - c1) + 1) by ring.
  replace ((1 + r (par self)) * (m1 - c1) + 1 + 0)
    with ((1 + r (par self)) * (m1 - c1) + 1) by ring.
  destruct (V2 [(1 + r (par self)) * (m1 - c1) + 1]) as [a| |]; simpl; try reflexivity.
  destruct (getitem a 0) as [v| |]; simpl; try reflexivity.
  destruct (utility self c1) as [u| |]; simpl; try reflexivity.
  f_equal.
  replace (P_low (par self) * v + P_high (par self) * v)
    with ((P_low (par self) + P_high (par self)) * v) by ring.
  rewrite HP. ring.
Qed.

(** The degenerate case at [Delta = 0], [P_low = 0.3], [P_high = 0.7], with
    the identity as continuation value. *)
Lemma v1_degenerate_witness :
  let self := __init__ (mkPar 2 0.1 0.5 0.95 0.02 0 0.3 0.7) in
  let p := par self in
  (1 + r p) * (2 - 1) + 1 - Delta p = (1 + r p) * (2 - 1) + 1 + Delta p /\
  v1 self 1 2 (fun xi => Return xi) =
    (a <- Return [(1 + r p) * (2 - 1) + 1] ;;
     v <- getitem a 0 ;;
     u <- utility self 1 ;;
     Return (u + beta p * v)).
Proof.
  apply (v1_degenerate (__init__ (mkPar 2 0.1 0.5 0.95 0.02 0 0.3 0.7)) 1 2
           (fun xi => Return xi)).
  - reflexivity.
  - simpl. lra.
Defined.

(** * Utility and bequest *)

Lemma Int_part_IZR (z : Z) : Int_part (IZR z) = z.
Proof.
  unfold Int_part. rewrite <- (tech_up (IZR z) (z + 1)).
  - lia.
  - rewrite plus_IZR. lra.
  - rewrite plus_IZR. lra.
Qed.

Lemma utility_zero self :
  1 < rho (par self) -> utility self 0 = Raise ZeroDivisionError.
Proof.
  intros Hrho. unfold utility, float_pow.
  destruct (Req_dec_T (1 - rho (par self)) 0); [lra|].
  destruct (Req_dec_T 0 0); [|lra].
  destruct (Rlt_dec (1 - rho (par self)) 0); [reflexivity|lra].
Qed.

Lemma utility_negative_nonintegral self c :
  c < 0 -> ~ is_integer (1 - rho (par self)) -> utility self c = NonReal.
Proof.
  intros Hc Hint. unfold utility, float_pow.
  destruct (Req_dec_T (1 - rho (par self)) 0) as [H0|_].
  { exfalso. apply Hint. unfold is_integer. rewrite H0.
    now rewrite (Int_part_IZR 0). }
  destruct (Req_dec_T c 0); [lra|].
  destruct (Rlt_dec 0 c); [lra|].
  destruct (is_integer_dec (1 - rho (par self))); [contradiction|reflexivity].
Qed.

(** Where the claim of C2 about non-positive consumption fails: with
    [rho = 2], [utility(-2)] is [(-2)**(-1)/(-1) = 0.5], a finite value. *)
Lemma utility_nonpositive_counterexample :
  let self := __init__ par_example in
  rho (par self) <> 1 /\ -2 <= 0 /\
  utility self (-2) = Return (1 / 2) /\
  ~ fails_or_nonfinite (utility self (-2)).
Proof.
  cbv zeta.
  assert (Hu : utility (__init__ par_example) (-2) = Return (1 / 2)).
  { unfold utility, float_pow. simpl.
    destruct (Req_dec_T (1 - 2) 0); [lra|].
    destruct (Req_dec_T (-2) 0); [lra|].
    destruct (Rlt_dec 0 (-2)); [lra|].
    replace (1 - 2) with (IZR (-1)) by lra.
    destruct (is_integer_dec (IZR (-1))) as [_|Hn].
    - rewrite Int_part_IZR. simpl.
      rewrite float_div_nonzero by lra. f_equal. field.
    - exfalso. apply Hn. unfold is_integer. now rewrite Int_part_IZR. }
  split; [simpl; lra|]. split; [lra|]. split; [exact Hu|].
  rewrite Hu. simpl. tauto.
Qed.

Lemma utility_nonpositive self c :
  rho (par self) <> 1 -> c <= 0 ->
  fails_or_nonfinite (utility self c) <->
  (c = 0 /\ 1 < rho (par self)) \/ (c < 0 /\ ~ is_integer (1 - rho (par self))).
Proof.
  intros Hrho Hc. split.
  - intros Hfail. destruct (Req_dec_T c 0) as [->|Hc0].
    + left. split; [reflexivity|].
      destruct (Rlt_dec 1 (rho (par self))) as [|Hle]; [assumption|].
      exfalso. revert Hfail. unfold utility, float_pow.
      destruct (Req_dec_T (1 - rho (par self)) 0); [lra|].
      destruct (Req_dec_T 0 0); [|lra].
      destruct (Rlt_dec (1 - rho (par self)) 0); [lra|]. simpl.
      now rewrite float_div_nonzero by lra.
    + right. split; [lra|]. intros Hint. revert Hfail.
      unfold utility, float_pow.
      destruct (Req_dec_T (1 - rho (par self)) 0); [lra|].
      destruct (Req_dec_T c 0); [lra|].
      destruct (Rlt_dec 0 c); [lra|].
      destruct (is_integer_dec (1 - rho (par self))); [|contradiction]. simpl.
      now rewrite float_div_nonzero by lra.
  - intros [[-> H1]|[Hneg Hint]].
    + now rewrite utility_zero.
    + now rewrite utility_negative_nonintegral.
Qed.

(** C2, amended. With [rho <> 1]: for [c > 0], [utility(c)] returns
    [c^(1-rho)/(1-rho)]; for [m - c + kappa > 0], [bequest(m, c)] returns
    [nu * (m - c + kappa)^(1-rho) / (1-rho)]; and for [c <= 0], [utility(c)]
    fails or is not a real number exactly when [c = 0] and [rho > 1]
    (division by zero) or [c < 0] and [1 - rho] is not an integer; for every
    other [c <= 0] it returns a finite value. *)
Theorem utility_bequest_values (self : ConsumptionSavingModel) :
  rho (par self) <> 1 ->
  (forall c, 0 < c ->
     utility self c =
     Return (Rpower c (1 - rho (par self)) / (1 - rho (par self)))) /\
  (forall m c, 0 < m - c + kappa (par self) ->
     bequest self m c =
     Return (nu (par self) * Rpower (m - c + kappa (par self)) (1 - rho (par self))
             / (1 - rho (par self)))) /\
  (forall c, c <= 0 ->
     fails_or_nonfinite (utility self c) <->
     (c = 0 /\ 1 < rho (par self)) \/
     (c < 0 /\ ~ is_integer (1 - rho (par self)))).
Proof.
  intros Hrho. split; [|split].
  - intros c Hc. now apply utility_pos.
  - intros m c Hc. now apply bequest_pos.
  - intros c Hc. now apply utility_nonpositive.
Qed.

(** The values of utility and bequest for the bundle of the end-to-end
    scenario, [rho = 2]. *)
Lemma utility_bequest_values_witness :
  let self := __init__ par_example in
  (forall c, 0 < c ->
     utility self c =
     Return (Rpower c (1 - rho (par self)) / (1 - rho (par self)))) /\
  (forall m c, 0 < m - c + kappa (par self) ->
     bequest self m c =
     Return (nu (par self) * Rpower (m - c + kappa (par self)) (1 - rho (par self))
             / (1 - rho (par self)))) /\
  (forall c, c <= 0 ->
     fails_or_nonfinite (utility self c) <->
     (c = 0 /\ 1 < rho (par self)) \/
     (c < 0 /\ ~ is_integer (1 - rho (par self)))).
Proof.
  apply (utility_bequest_values (__init__ par_example)).
  simpl. lra.
Defined.

(** * The solution arrays *)

Local Close Scope outcome_scope.

(** C3. For a valid bundle every stored optimal consumption lies in its
    feasible interval: [0 < c2s[i] <= m2s[i]] in period 2 and
    [0 < c1s[i] <= m1s[i] + (1-Delta)/(1+r)] in period 1, at every grid
    index. *)
Theorem optimal_consumption_feasible
    (minimize : (list R -> outcome R) -> list R -> list (R * R) ->
                outcome optimize.OptimizeResult)
    (self : ConsumptionSavingModel) :
  box_optimizer minimize ->
  valid_par (par self) ->
  exists m1s v1s c1s m2s v2s c2s,
    result (solve_period_2 minimize self) = Return (m2s, v2s, c2s) /\
    result (solve minimize self) = Return (m1s, v1s, c1s, m2s, v2s, c2s) /\
    (forall i, (i < length m2s)%nat -> 0 < nth i c2s 0 <= nth i m2s 0) /\
    (forall i, (i < length m1s)%nat ->
       0 < nth i c1s 0 <=
       nth i m1s 0 + (1 - Delta (par self)) / (1 + r (par self))).
Proof.
  intros Hopt Hvalid.
  destruct (solve_spec minimize Hopt self (valid_par_well_posed _ Hvalid))
    as (v2s & c2s & v1s & c1s & H2 & _ & _ & Hsolve & _ & _ & Hb2 & Hb1).
  exists m1_grid, v1s, c1s, m2_grid, v2s, c2s.
  split; [now rewrite H2|]. split; [now rewrite Hsolve|]. split.
  - intros i Hi. rewrite m2_grid_length in Hi. specialize (Hb2 i Hi). lra.
  - intros i Hi. rewrite m1_grid_length in Hi. specialize (Hb1 i Hi).
    unfold upper_1 in Hb1. lra.
Qed.

(** The end-to-end scenario, solved with the optimizer that stops at its
    initial guess. *)
Lemma optimal_consumption_feasible_witness :
  let self := __init__ par_example in
  exists m1s v1s c1s m2s v2s c2s,
    result (solve_period_2 minimize_start self) = Return (m2s, v2s, c2s) /\
    result (solve minimize_start self) = Return (m1s, v1s, c1s, m2s, v2s, c2s) /\
    (forall i, (i < length m2s)%nat -> 0 < nth i c2s 0 <= nth i m2s 0) /\
    (forall i, (i < length m1s)%nat ->
       0 < nth i c1s 0 <=
       nth i m1s 0 + (1 - Delta (par self)) / (1 + r (par self))).
Proof.
  exact (optimal_consumption_feasible minimize_start (__init__ par_example)
           box_optimizer_minimize_start valid_par_example).
Defined.

(** C5. For a valid bundle, [solve()] runs the period-2 solver, then builds
    the interpolator over [(m2, v2)], then runs the period-1 solver with that
    interpolator, and returns [(m1, v1, c1, m2, v2, c2)]: six non-empty
    arrays, those of each period of equal length. *)
Theorem solve_sequencing
    (minimize : (list R -> outcome R) -> list R -> list (R * R) ->
                outcome optimize.OptimizeResult)
    (self : ConsumptionSavingModel) :
  box_optimizer minimize ->
  valid_par (par self) ->
  exists m1s v1s c1s m2s v2s c2s v2_interp t2 t1,
    solve_period_2 minimize self = (t2, Return (m2s, v2s, c2s)) /\
    interpolate.new [m2s] v2s false None = Return v2_interp /\
    solve_period_1 minimize self (interpolate.call v2_interp) =
      (t1, Return (m1s, v1s, c1s)) /\
    solve minimize self =
      (t2 ++ [EvInterpolator [m2s] v2s false None] ++ t1,
       Return (m1s, v1s, c1s, m2s, v2s, c2s)) /\
    forallb is_minimize t2 = true /\ length t2 = length m2s /\
    forallb is_minimize t1 = true /\ length t1 = length m1s /\
    (0 < length m1s)%nat /\ length m1s = length v1s /\ length v1s = length c1s /\
    (0 < length m2s)%nat /\ length m2s = length v2s /\ length v2s = length c2s.
Proof.
  intros Hopt Hvalid.
  destruct (solve_spec minimize Hopt self (valid_par_well_posed _ Hvalid))
    as (v2s & c2s & v1s & c1s & H2 & Hnew & H1 & Hsolve & [Hlv2 Hlc2] & [Hlv1 Hlc1] & _).
  exists m1_grid, v1s, c1s, m2_grid, v2s, c2s.
  exists (interpolate.mkRGI m2_grid v2s false None).
  exists (map ev_2 (enumerate m2_grid)), (map (ev_1 self) (enumerate m1_grid)).
  split; [exact H2|]. split; [exact Hnew|]. split; [exact H1|].
  split; [exact Hsolve|].
  split; [apply forallb_forall; intros e He; apply in_map_iff in He;
          now destruct He as (it & <- & _)|].
  split; [now rewrite length_map, enumerate_length|].
  split; [apply forallb_forall; intros e He; apply in_map_iff in He;
          now destruct He as (it & <- & _)|].
  split; [now rewrite length_map, enumerate_length|].
  rewrite m1_grid_length, m2_grid_length. lia.
Qed.

Lemma solve_sequencing_witness :
  let self := __init__ par_example in
  exists m1s v1s c1s m2s v2s c2s v2_interp t2 t1,
    solve_period_2 minimize_start self = (t2, Return (m2s, v2s, c2s)) /\
    interpolate.new [m2s] v2s false None = Return v2_interp /\
    solve_period_1 minimize_start self (interpolate.call v2_interp) =
      (t1, Return (m1s, v1s, c1s)) /\
    solve minimize_start self =
      (t2 ++ [EvInterpolator [m2s] v2s false None] ++ t1,
       Return (m1s, v1s, c1s, m2s, v2s, c2s)) /\
    forallb is_minimize t2 = true /\ length t2 = length m2s /\
    forallb is_minimize t1 = true /\ length t1 = length m1s /\
    (0 < length m1s)%nat /\ length m1s = length v1s /\ length v1s = length c1s /\
    (0 < length m2s)%nat /\ length m2s = length v2s /\ length v2s = length c2s.
Proof.
  exact (solve_sequencing minimize_start (__init__ par_example)
           box_optimizer_minimize_start valid_par_example).
Defined.

(** * No validation of the bundle *)

Lemma trace_mbind {A B : Type} (m : M A) (k : A -> M B) :
  exists t, trace (mbind m k) = trace m ++ t.
Proof.
  unfold mbind, trace. destruct (snd m) as [a| |]; simpl.
  - now exists (fst (k a)).
  - exists []. now rewrite app_nil_r.
  - exists []. now rewrite app_nil_r.
Qed.

Lemma par_unnormalised_invalid : ~ valid_par par_unnormalised.
Proof. unfold valid_par, par_unnormalised; simpl. lra. Qed.

Lemma par_unnormalised_well_posed : well_posed par_unnormalised.
Proof. unfold well_posed, par_unnormalised; simpl. lra. Qed.

Lemma solve_starts_sweep minimize self :
  exists t, trace (solve minimize self) = first_call :: t.
Proof.
  unfold solve.
  destruct (trace_mbind (solve_period_2 minimize self)
              (fun x => let '(m2, v2, c2) := x in
                 mbind (new_interpolator [m2] v2 false None)
                   (fun v2_interp =>
                      mbind (solve_period_1 minimize self (interpolate.call v2_interp))
                        (fun y => let '(m1, v1, c1) := y in
                           mret (m1, v1, c1, m2, v2, c2)))))
    as [t ->].
  rewrite solve_period_2_grid.
  destruct (trace_mbind
              (solve_period_2_loop minimize self (enumerate m2_grid)
                 (np.empty 500) (np.empty 500))
              (fun x => let '(v2s, c2s) := x in mret (m2_grid, v2s, c2s)))
    as [t' ->].
  unfold first_call. pose proof m2_grid_length as Hlen.
  destruct m2_grid as [|a l]; [discriminate|].
  change (enumerate (a :: l)) with ((0%nat, a) :: combine (seq 1 (length l)) l).
  cbn [solve_period_2_loop].
  match goal with
  | |- context [trace (mbind ?m ?k)] => destruct (trace_mbind m k) as [t'' ->]
  end.
  simpl. eexists; reflexivity.
Qed.

(** Where the claim of C4 fails: the bundle with [P_low = P_high = 1] is not
    valid, and [solve] reports nothing: it makes its optimizer calls and
    returns the six arrays. *)
Lemma solve_invalid_counterexample :
  let self := __init__ par_unnormalised in
  ~ valid_par (par self) /\
  returns (result (solve minimize_start self)) /\
  ~ (exists e, solve minimize_start self = ([], Raise e)).
Proof.
  cbv zeta. split; [exact par_unnormalised_invalid|].
  destruct (solve_spec minimize_start box_optimizer_minimize_start
              (__init__ par_unnormalised) par_unnormalised_well_posed)
    as (v2s & c2s & v1s & c1s & _ & _ & _ & Hsolve & _).
  rewrite Hsolve. split.
  - eexists; reflexivity.
  - intros [e He]. discriminate.
Qed.

(** C4, amended. [solve] does not validate the bundle: for every bundle its
    first action is the optimizer call for the first point of the period-2
    grid, so no error is reported before optimization runs; and a bundle that
    keeps every objective defined ([rho <> 1], [kappa > 0], [r > -1],
    [0 <= Delta <= 1]) is solved to the end whatever its other fields. *)
Theorem solve_no_validation
    (minimize : (list R -> outcome R) -> list R -> list (R * R) ->
                outcome optimize.OptimizeResult)
    (self : ConsumptionSavingModel) :
  (exists t, trace (solve minimize self) = first_call :: t) /\
  (box_optimizer minimize -> well_posed (par self) ->
   returns (result (solve minimize self))).
Proof.
  split; [apply solve_starts_sweep|].
  intros Hopt Hpar.
  destruct (solve_spec minimize Hopt self Hpar)
    as (v2s & c2s & v1s & c1s & _ & _ & _ & Hsolve & _).
  rewrite Hsolve. eexists; reflexivity.
Qed.

Lemma solve_no_validation_witness :
  let self := __init__ par_unnormalised in
  (exists t, trace (solve minimize_start self) = first_call :: t) /\
  returns (result (solve minimize_start self)).
Proof.
  destruct (solve_no_validation minimize_start (__init__ par_unnormalised))
    as [Hfirst Hreturns].
  split; [exact Hfirst|].
  exact (Hreturns box_optimizer_minimize_start par_unnormalised_well_posed).
Defined.

(** * Extrapolation *)

Lemma item_nat (a : list R) (i : nat) : np.item a (Z.of_nat i) = nth i a 0.
Proof.
  unfold np.item.
  destruct (Z.ltb_spec (Z.of_nat i) 0) as [Hneg|_]; [lia|].
  now rewrite Nat2Z.id.
Qed.

Lemma ascending_cons a b t :
  interpolate.strictly_ascending (a :: b :: t) = true ->
  a < b /\ interpolate.strictly_ascending (b :: t) = true.
Proof.
  simpl. destruct (Rlt_dec a b) as [Hab|_]; [|discriminate]. now split.
Qed.

Lemma ascending_le_last g :
  interpolate.strictly_ascending g = true ->
  forall i, (i < length g)%nat -> nth i g 0 <= nth (length g - 1) g 0.
Proof.
  induction g as [|a t IH]; intros Hasc i Hi; simpl in Hi; [lia|].
  destruct t as [|b t'].
  - destruct i; [|simpl in Hi; lia]. simpl. lra.
  - apply ascending_cons in Hasc as [Hab Hasc].
    replace (length (a :: b :: t') - 1)%nat with (S (length (b :: t') - 1))
      by (simpl; lia).
    change (nth (S (length (b :: t') - 1)) (a :: b :: t') 0)
      with (nth (length (b :: t') - 1) (b :: t') 0).
    destruct i as [|j].
    + specialize (IH Hasc 0%nat ltac:(simpl; lia)). simpl in *. lra.
    + apply (IH Hasc j). simpl in *. lia.
Qed.

Lemma ascending_nth_lt g :
  interpolate.strictly_ascending g = true ->
  forall i, (S i < length g)%nat -> nth i g 0 < nth (S i) g 0.
Proof.
  induction g as [|a t IH]; intros Hasc i Hi; simpl in Hi; [lia|].
  destruct t as [|b t']; [simpl in Hi; lia|].
  apply ascending_cons in Hasc as [Hab Hasc].
  destruct i as [|j]; [exact Hab|].
  apply (IH Hasc j). simpl in *. lia.
Qed.

Lemma searchsorted_left g x : x <= nth 0 g 0 -> np.searchsorted g x = 0%nat.
Proof.
  destruct g as [|a t]; [reflexivity|]. simpl. intros Hx.
  destruct (Rlt_dec a x); [lra|reflexivity].
Qed.

Lemma searchsorted_right g x :
  (forall i, (i < length g)%nat -> nth i g 0 < x) ->
  np.searchsorted g x = length g.
Proof.
  induction g as [|a t IH]; intros Hx; [reflexivity|]. simpl.
  destruct (Rlt_dec a x) as [_|Hn].
  - f_equal. apply IH. intros i Hi. apply (Hx (S i)). simpl. lia.
  - destruct Hn. apply (Hx 0%nat). simpl. lia.
Qed.

Lemma find_index_left g x :
  (2 <= length g)%nat -> x <= nth 0 g 0 -> interpolate.find_index g x = 0%Z.
Proof.
  intros Hlen Hx. unfold interpolate.find_index.
  rewrite searchsorted_left by assumption. simpl.
  destruct (Z.gtb_spec 0 (Z.of_nat (length g) - 2)); [lia|reflexivity].
Qed.

Lemma find_index_right g x :
  (2 <= length g)%nat -> interpolate.strictly_ascending g = true ->
  nth (length g - 1) g 0 < x ->
  interpolate.find_index g x = Z.of_nat (length g - 2).
Proof.
  intros Hlen Hasc Hx. unfold interpolate.find_index.
  rewrite searchsorted_right.
  - destruct (Z.ltb_spec (Z.of_nat (length g) - 1) 0); [lia|].
    destruct (Z.gtb_spec (Z.of_nat (length g) - 1) (Z.of_nat (length g) - 2)); lia.
  - intros i Hi. pose proof (ascending_le_last g Hasc i Hi). lra.
Qed.

Lemma evaluate_linear_line g v i x :
  nth i g 0 < nth (S i) g 0 ->
  interpolate.find_index g x = Z.of_nat i ->
  interpolate.evaluate_linear g v x =
  line (nth i g 0) (nth i v 0) (nth (S i) g 0) (nth (S i) v 0) x.
Proof.
  intros Hlt Hi. unfold interpolate.evaluate_linear. rewrite Hi.
  replace (Z.of_nat i + 1)%Z with (Z.of_nat (S i)) by lia.
  rewrite !item_nat. unfold line. field. lra.
Qed.

Lemma call_extrapolates f :
  interpolate.bounds_error f = false -> interpolate.fill_value f = None ->
  interpolate.strictly_ascending (interpolate.grid f) = true ->
  (2 <= length (interpolate.grid f))%nat ->
  extrapolates f.
Proof.
  intros Hbe Hfv Hasc Hlen. unfold extrapolates. cbv zeta. split; intros x Hx.
  - rewrite interpolate_call_extrapolating by assumption. simpl.
    rewrite interpolate_eval_no_fill by assumption.
    rewrite (evaluate_linear_line _ _ 0%nat); [reflexivity| |].
    + apply ascending_nth_lt; [assumption|lia].
    + apply find_index_left; [assumption|lra].
  - rewrite interpolate_call_extrapolating by assumption. simpl.
    rewrite interpolate_eval_no_fill by assumption.
    rewrite (evaluate_linear_line _ _ (length (interpolate.grid f) - 2)%nat).
    + now replace (S (length (interpolate.grid f) - 2))
        with (length (interpolate.grid f) - 1)%nat by lia.
    + apply ascending_nth_lt; [assumption|lia].
    + now apply find_index_right.
Qed.

Lemma extrapolates_eval f x :
  extrapolates f ->
  (x < nth 0 (interpolate.grid f) 0 ->
   interpolate.eval f x =
   line (nth 0 (interpolate.grid f) 0) (nth 0 (interpolate.values f) 0)
        (nth 1 (interpolate.grid f) 0) (nth 1 (interpolate.values f) 0) x) /\
  (nth (length (interpolate.grid f) - 1) (interpolate.grid f) 0 < x ->
   interpolate.eval f x =
   line (nth (length (interpolate.grid f) - 2) (interpolate.grid f) 0)
        (nth (length (interpolate.grid f) - 2) (interpolate.values f) 0)
        (nth (length (interpolate.grid f) - 1) (interpolate.grid f) 0)
        (nth (length (interpolate.grid f) - 1) (interpolate.values f) 0) x).
Proof.
  intros [Hleft Hright]. split; intros Hx.
  - specialize (Hleft x Hx). unfold interpolate.call in Hleft.
    destruct (interpolate.bounds_error f && _); [discriminate|].
    now injection Hleft.
  - specialize (Hright x Hx). unfold interpolate.call in Hright.
    destruct (interpolate.bounds_error f && _); [discriminate|].
    now injection Hright.
Qed.

(** C7. For a solved model, the value interpolator of period 2, as [solve]
    builds it and hands it to the period-1 solver, and the policy
    interpolator of period 1, as [simulate] builds and evaluates it, do not
    raise outside the range of their grids: they return the linearly
    extrapolated value. So the period-1 objective returns at every
    consumption of its box, wherever next-period cash-on-hand falls, and
    [simulate] answers a draw outside the grid with the extrapolated
    consumption. *)
Theorem interpolators_extrapolate
    (minimize : (list R -> outcome R) -> list R -> list (R * R) ->
                outcome optimize.OptimizeResult)
    (self : ConsumptionSavingModel) :
  box_optimizer minimize ->
  valid_par (par self) ->
  exists m1s v1s c1s m2s v2s c2s v2_interp c1_interp1 t2 t1,
    solve_period_2 minimize self = (t2, Return (m2s, v2s, c2s)) /\
    interpolate.new [m2s] v2s false None = Return v2_interp /\
    solve_period_1 minimize self (interpolate.call v2_interp) =
      (t1, Return (m1s, v1s, c1s)) /\
    solve minimize self =
      (t2 ++ [EvInterpolator [m2s] v2s false None] ++ t1,
       Return (m1s, v1s, c1s, m2s, v2s, c2s)) /\
    interpolate.new [m1s] c1s false None = Return c1_interp1 /\
    simulate minimize self =
      ((t2 ++ [EvInterpolator [m2s] v2s false None] ++ t1) ++
       [EvInterpolator [m1s] c1s false None],
       Return (map (interpolate.eval c1_interp1) (sim_m1 self))) /\
    extrapolates v2_interp /\ extrapolates c1_interp1 /\
    (forall m1 c1, 1e-12 <= c1 ->
       returns (obj_1 self (interpolate.call v2_interp) m1 [c1])) /\
    (forall i x, nth_error (sim_m1 self) i = Some x ->
       (x < nth 0 m1s 0 ->
        nth_error (map (interpolate.eval c1_interp1) (sim_m1 self)) i =
        Some (line (nth 0 m1s 0) (nth 0 c1s 0) (nth 1 m1s 0) (nth 1 c1s 0) x)) /\
       (nth (length m1s - 1) m1s 0 < x ->
        nth_error (map (interpolate.eval c1_interp1) (sim_m1 self)) i =
        Some (line (nth (length m1s - 2) m1s 0) (nth (length m1s - 2) c1s 0)
                   (nth (length m1s - 1) m1s 0) (nth (length m1s - 1) c1s 0) x))).
Proof.
  intros Hopt Hvalid.
  pose proof (valid_par_well_posed _ Hvalid) as Hpar.
  destruct (solve_spec minimize Hopt self Hpar)
    as (v2s & c2s & v1s & c1s & H2 & Hnew2 & H1 & Hsolve & _).
  destruct (simulate_spec minimize Hopt self Hpar)
    as (v2s' & c2s' & v1s' & c1s' & Hsolve' & Hnew1 & Hsim).
  rewrite Hsolve in Hsolve'. injection Hsolve' as _ <- <- <- <-.
  set (f2 := interpolate.mkRGI m2_grid v2s false None) in *.
  set (f1 := interpolate.mkRGI m1_grid c1s false None) in *.
  assert (He2 : extrapolates f2).
  { apply call_extrapolates; try reflexivity.
    - apply m2_grid_ascending.
    - unfold f2. cbn [interpolate.grid]. rewrite m2_grid_length. lia. }
  assert (He1 : extrapolates f1).
  { apply call_extrapolates; try reflexivity.
    - apply m1_grid_ascending.
    - unfold f1. cbn [interpolate.grid]. rewrite m1_grid_length. lia. }
  exists m1_grid, v1s, c1s, m2_grid, v2s, c2s, f2, f1.
  exists (map ev_2 (enumerate m2_grid)), (map (ev_1 self) (enumerate m1_grid)).
  split; [exact H2|]. split; [exact Hnew2|]. split; [exact H1|].
  split; [exact Hsolve|]. split; [exact Hnew1|]. split; [exact Hsim|].
  split; [exact He2|]. split; [exact He1|]. split.
  - intros m1 c1 Hc1. destruct Hpar as (Hrho & _).
    apply obj_1_returns; [exact Hrho| |exact Hc1].
    now apply pointwise_call.
  - intros i x Hi.
    destruct (extrapolates_eval f1 x He1) as [Hleft Hright].
    split; intros Hx.
    + rewrite (map_nth_error _ _ _ Hi). f_equal. now apply Hleft.
    + rewrite (map_nth_error _ _ _ Hi). f_equal. now apply Hright.
Qed.

(** The end-to-end scenario with one draw below and one above the grid. *)
Lemma interpolators_extrapolate_witness :
  exists m1s v1s c1s m2s v2s c2s v2_interp c1_interp1 t2 t1,
    solve_period_2 minimize_start (mkModel par_example [-1; 7] []) = (t2, Return (m2s, v2s, c2s)) /\
    interpolate.new [m2s] v2s false None = Return v2_interp /\
    solve_period_1 minimize_start (mkModel par_example [-1; 7] []) (interpolate.call v2_interp) =
      (t1, Return (m1s, v1s, c1s)) /\
    solve minimize_start (mkModel par_example [-1; 7] []) =
      (t2 ++ [EvInterpolator [m2s] v2s false None] ++ t1,
       Return (m1s, v1s, c1s, m2s, v2s, c2s)) /\
    interpolate.new [m1s] c1s false None = Return c1_interp1 /\
    simulate minimize_start (mkModel par_example [-1; 7] []) =
      ((t2 ++ [EvInterpolator [m2s] v2s false None] ++ t1) ++
       [EvInterpolator [m1s] c1s false None],
       Return (map (interpolate.eval c1_interp1) (sim_m1 (mkModel par_example [-1; 7] [])))) /\
    extrapolates v2_interp /\ extrapolates c1_interp1 /\
    (forall m1 c1, 1e-12 <= c1 ->
       returns (obj_1 (mkModel par_example [-1; 7] []) (interpolate.call v2_interp) m1 [c1])) /\
    (forall i x, nth_error (sim_m1 (mkModel par_example [-1; 7] [])) i = Some x ->
       (x < nth 0 m1s 0 ->
        nth_error (map (interpolate.eval c1_interp1) (sim_m1 (mkModel par_example [-1; 7] []))) i =
        Some (line (nth 0 m1s 0) (nth 0 c1s 0) (nth 1 m1s 0) (nth 1 c1s 0) x)) /\
       (nth (length m1s - 1) m1s 0 < x ->
        nth_error (map (interpolate.eval c1_interp1) (sim_m1 (mkModel par_example [-1; 7] []))) i =
        Some (line (nth (length m1s - 2) m1s 0) (nth (length m1s - 2) c1s 0)
                   (nth (length m1s - 1) m1s 0) (nth (length m1s - 1) c1s 0) x))).
Proof.
  exact (interpolators_extrapolate minimize_start (mkModel par_example [-1; 7] [])
           box_optimizer_minimize_start valid_par_example).
Defined.

(** * Simulation *)

(** C8. For a valid bundle and any draws, [simulate()] returns one value per
    draw, in the order of the draws, each the value at that draw of the
    interpolator built over [(m1, c1)]; for the draws [[1.0, 2.0, 3.0]] it
    returns three values. *)
Theorem simulate_pointwise
    (minimize : (list R -> outcome R) -> list R -> list (R * R) ->
                outcome optimize.OptimizeResult)
    (self : ConsumptionSavingModel) :
  box_optimizer minimize ->
  valid_par (par self) ->
  exists m1s v1s c1s m2s v2s c2s c1_interp1 sim_c1,
    result (solve minimize self) = Return (m1s, v1s, c1s, m2s, v2s, c2s) /\
    interpolate.new [m1s] c1s false None = Return c1_interp1 /\
    result (simulate minimize self) = Return sim_c1 /\
    length sim_c1 = length (sim_m1 self) /\
    (forall i x, nth_error (sim_m1 self) i = Some x ->
       exists y, nth_error sim_c1 i = Some y /\
                 interpolate.call c1_interp1 [x] = Return [y]) /\
    (sim_m1 self = [1; 2; 3] -> exists a b c, sim_c1 = [a; b; c]).
Proof.
  intros Hopt Hvalid.
  pose proof (valid_par_well_posed _ Hvalid) as Hpar.
  destruct (simulate_spec minimize Hopt self Hpar)
    as (v2s & c2s & v1s & c1s & Hsolve & Hnew & Hsim).
  exists m1_grid, v1s, c1s, m2_grid, v2s, c2s.
  exists (interpolate.mkRGI m1_grid c1s false None).
  exists (map (interpolate.eval (interpolate.mkRGI m1_grid c1s false None))
            (sim_m1 self)).
  split; [now rewrite Hsolve|]. split; [exact Hnew|].
  split; [now rewrite Hsim|]. split; [apply length_map|]. split.
  - intros i x Hi.
    exists (interpolate.eval (interpolate.mkRGI m1_grid c1s false None) x).
    split; [now apply map_nth_error|].
    now apply interpolate_call_extrapolating.
  - intros ->. cbn [map]. now eexists _, _, _.
Qed.

Lemma simulate_pointwise_witness :
  let self := mkModel par_example [1; 2; 3] [] in
  exists m1s v1s c1s m2s v2s c2s c1_interp1 sim_c1,
    result (solve minimize_start self) = Return (m1s, v1s, c1s, m2s, v2s, c2s) /\
    interpolate.new [m1s] c1s false None = Return c1_interp1 /\
    result (simulate minimize_start self) = Return sim_c1 /\
    length sim_c1 = length (sim_m1 self) /\
    (forall i x, nth_error (sim_m1 self) i = Some x ->
       exists y, nth_error sim_c1 i = Some y /\
                 interpolate.call c1_interp1 [x] = Return [y]) /\
    (sim_m1 self = [1; 2; 3] -> exists a b c, sim_c1 = [a; b; c]).
Proof.
  exact (simulate_pointwise minimize_start (mkModel par_example [1; 2; 3] [])
           box_optimizer_minimize_start valid_par_example).
Defined.

(** * What period 2 depends on *)

Lemma mbind_ext {A B : Type} (m : M A) (k k' : A -> M B) :
  (forall a, k a = k' a) -> mbind m k = mbind m k'.
Proof. intros Hk. unfold mbind. destruct (snd m); now rewrite ?Hk. Qed.

Lemma obj_2_independent self1 self2 :
  rho (par self1) = rho (par self2) ->
  nu (par self1) = nu (par self2) ->
  kappa (par self1) = kappa (par self2) ->
  obj_2 self1 = obj_2 self2.
Proof.
  intros Hrho Hnu Hkappa.
  unfold obj_2, v2, utility, bequest.
  now rewrite Hrho, Hnu, Hkappa.
Qed.

Lemma solve_period_2_loop_independent minimize self1 self2 its :
  obj_2 self1 = obj_2 self2 ->
  forall v2s c2s,
    solve_period_2_loop minimize self1 its v2s c2s =
    solve_period_2_loop minimize self2 its v2s c2s.
Proof.
  intros Hobj. induction its as [|[i m] rest IH]; intros v2s c2s.
  - reflexivity.
  - cbn [solve_period_2_loop]. rewrite Hobj.
    apply mbind_ext. intros res.
    apply mbind_ext. intros v2s'.
    apply mbind_ext. intros c2s'.
    apply IH.
Qed.

(** C9. Two bundles that agree on [rho], [nu] and [kappa] have the same
    period-2 solution [(m2s, v2s, c2s)], whatever their [beta], [r],
    [Delta], [P_low] and [P_high]. *)
Theorem solve_period_2_independent
    (minimize : (list R -> outcome R) -> list R -> list (R * R) ->
                outcome optimize.OptimizeResult)
    (self1 self2 : ConsumptionSavingModel) :
  rho (par self1) = rho (par self2) ->
  nu (par self1) = nu (par self2) ->
  kappa (par self1) = kappa (par self2) ->
  solve_period_2 minimize self1 = solve_period_2 minimize self2.
Proof.
  intros Hrho Hnu Hkappa.
  rewrite !solve_period_2_grid.
  now rewrite (solve_period_2_loop_independent minimize self1 self2 _
                 (obj_2_independent self1 self2 Hrho Hnu Hkappa)).
Qed.

Lemma solve_period_2_independent_witness :
  solve_period_2 minimize_start (__init__ par_example) =
  solve_period_2 minimize_start (__init__ (mkPar 2 0.1 0.5 0.5 0.1 0 0.2 0.8)).
Proof.
  apply (solve_period_2_independent minimize_start (__init__ par_example)
           (__init__ (mkPar 2 0.1 0.5 0.5 0.1 0 0.2 0.8))); reflexivity.
Defined.

(** * Traces of consecutive runs *)

Lemma trace_mbind_Return {A B : Type} (m : M A) (k : A -> M B) a :
  result m = Return a -> trace (mbind m k) = trace m ++ trace (k a).
Proof. unfold result, trace, mbind. now intros ->. Qed.

Lemma count_minimize_sweep {A : Type} (f : A -> event) (l : list A) :
  (forall a, is_minimize (f a) = true) ->
  length (filter is_minimize (map f l)) = length l.
Proof.
  intros Hf. induction l as [|a l IH]; [reflexivity|].
  simpl. rewrite Hf. simpl. now rewrite IH.
Qed.

(** * Further properties of utility and bequest *)

Lemma crra_increasing y a b :
  y <> 0 -> 0 < a < b -> Rpower a y / y < Rpower b y / y.
Proof.
  intros Hy Hab. destruct (Rlt_dec 0 y) as [Hpos|Hneg].
  - pose proof (Rlt_Rpower_l a b y Hpos Hab) as Hlt.
    apply Rmult_lt_compat_r; [apply Rinv_0_lt_compat; lra|exact Hlt].
  - assert (Hny : 0 < - y) by lra.
    pose proof (Rlt_Rpower_l a b (- y) Hny Hab) as Hlt.
    rewrite !Rpower_Ropp in Hlt.
    assert (Ha : 0 < Rpower a y) by apply exp_pos.
    assert (Hb : 0 < Rpower b y) by apply exp_pos.
    assert (Hba : Rpower b y < Rpower a y).
    { destruct (Rlt_dec (Rpower b y) (Rpower a y)) as [|Hge]; [assumption|].
      exfalso.
      assert (/ Rpower b y <= / Rpower a y) by (apply Rinv_le_contravar; lra).
      lra. }
    unfold Rdiv.
    assert (Hinv : / y < 0) by (apply Rinv_lt_0_compat; lra).
    nra.
Qed.

(** X1. Utility is strictly increasing in consumption, for every curvature
    [rho <> 1]. *)
Theorem utility_increasing (self : ConsumptionSavingModel) (c c' : R) :
  rho (par self) <> 1 -> 0 < c < c' ->
  exists u u', utility self c = Return u /\ utility self c' = Return u' /\ u < u'.
Proof.
  intros Hrho Hc.
  exists (Rpower c (1 - rho (par self)) / (1 - rho (par self))).
  exists (Rpower c' (1 - rho (par self)) / (1 - rho (par self))).
  split; [apply utility_pos; lra|]. split; [apply utility_pos; lra|].
  apply crra_increasing; lra.
Qed.

Lemma utility_increasing_witness :
  exists u u', utility (__init__ par_example) 1 = Return u /\
               utility (__init__ par_example) 2 = Return u' /\ u < u'.
Proof.
  apply (utility_increasing (__init__ par_example) 1 2); simpl; lra.
Defined.

(** X2. The sign of utility is that of [1 - rho]: negative for [rho > 1],
    positive for [rho < 1], at every positive consumption. *)
Theorem utility_sign (self : ConsumptionSavingModel) (c : R) :
  rho (par self) <> 1 -> 0 < c ->
  exists u, utility self c = Return u /\
            (1 < rho (par self) -> u < 0) /\ (rho (par self) < 1 -> 0 < u).
Proof.
  intros Hrho Hc.
  exists (Rpower c (1 - rho (par self)) / (1 - rho (par self))).
  split; [now apply utility_pos|].
  assert (Hp : 0 < Rpower c (1 - rho (par self))) by apply exp_pos.
  split; intros Hr.
  - assert (Hinv : / (1 - rho (par self)) < 0) by (apply Rinv_lt_0_compat; lra).
    unfold Rdiv. nra.
  - apply Rdiv_lt_0_compat; lra.
Qed.

Lemma utility_sign_witness :
  exists u, utility (__init__ par_example) 3 = Return u /\
            (1 < rho (par (__init__ par_example)) -> u < 0) /\
            (rho (par (__init__ par_example)) < 1 -> 0 < u).
Proof.
  apply (utility_sign (__init__ par_example) 3); simpl; lra.
Defined.

(** X3. Utility is homogeneous of degree [1 - rho]:
    [utility(k*c) = k^(1-rho) * utility(c)] for positive [k] and [c]. *)
Theorem utility_homogeneous (self : ConsumptionSavingModel) (k c : R) :
  rho (par self) <> 1 -> 0 < k -> 0 < c ->
  exists u, utility self c = Return u /\
            utility self (k * c) = Return (Rpower k (1 - rho (par self)) * u).
Proof.
  intros Hrho Hk Hc.
  exists (Rpower c (1 - rho (par self)) / (1 - rho (par self))).
  split; [now apply utility_pos|].
  rewrite utility_pos by (try assumption; apply Rmult_lt_0_compat; assumption).
  rewrite <- Rpower_mult_distr by assumption.
  f_equal. unfold Rdiv. ring.
Qed.

Lemma utility_homogeneous_witness :
  exists u, utility (__init__ par_example) 3 = Return u /\
            utility (__init__ par_example) (2 * 3) =
            Return (Rpower 2 (1 - rho (par (__init__ par_example))) * u).
Proof.
  apply (utility_homogeneous (__init__ par_example) 2 3); simpl; lra.
Defined.

Lemma utility_rho_one self c :
  rho (par self) = 1 -> utility self c = Raise ZeroDivisionError.
Proof.
  intros Hrho. unfold utility, float_pow, float_div. rewrite Hrho.
  destruct (Req_dec_T (1 - 1) 0); [|lra]. simpl.
  destruct (Req_dec_T (1 - 1) 0); [reflexivity|lra].
Qed.

Lemma bequest_rho_one self m c :
  rho (par self) = 1 -> bequest self m c = Raise ZeroDivisionError.
Proof.
  intros Hrho. unfold bequest, float_pow, float_div. rewrite Hrho.
  destruct (Req_dec_T (1 - 1) 0); [|lra]. simpl.
  destruct (Req_dec_T (1 - 1) 0); [reflexivity|lra].
Qed.

(** X4. With [rho = 1] no value function ever returns a finite value:
    utility and bequest divide by zero at every argument, and so [v2], [v1]
    and the two objectives of the solvers fail at every argument too. *)
Theorem rho_one_never_returns (self : ConsumptionSavingModel) :
  rho (par self) = 1 ->
  (forall c, fails_or_nonfinite (utility self c)) /\
  (forall m c, fails_or_nonfinite (bequest self m c)) /\
  (forall c2 m2, fails_or_nonfinite (v2 self c2 m2)) /\
  (forall c1 m1 V2, fails_or_nonfinite (v1 self c1 m1 V2)) /\
  (forall m2 x, fails_or_nonfinite (obj_2 self m2 x)) /\
  (forall V2 m1 x, fails_or_nonfinite (obj_1 self V2 m1 x)).
Proof.
  intros Hrho.
  assert (Hv1 : forall c1 m1 V2, fails_or_nonfinite (v1 self c1 m1 V2)).
  { intros c1 m1 V2. unfold v1.
    destruct (V2 _) as [a| |]; simpl; try exact I.
    destruct (getitem a 0) as [v| |]; simpl; try exact I.
    destruct (V2 _) as [a'| |]; simpl; try exact I.
    destruct (getitem a' 0) as [v'| |]; simpl; try exact I.
    now rewrite utility_rho_one. }
  split; [intros c; now rewrite utility_rho_one|].
  split; [intros m c; now rewrite bequest_rho_one|].
  split; [intros c2 m2; unfold v2; now rewrite utility_rho_one|].
  split; [exact Hv1|]. split.
  - intros m2 x. unfold obj_2.
    destruct (getitem x 0) as [c| |]; simpl; try exact I.
    unfold v2. now rewrite utility_rho_one.
  - intros V2 m1 x. unfold obj_1.
    destruct (getitem x 0) as [c| |]; simpl; try exact I.
    specialize (Hv1 c m1 V2).
    destruct (v1 self c m1 V2); simpl; [contradiction|exact I|exact I].
Qed.

Lemma rho_one_never_returns_witness :
  let self := __init__ (mkPar 1 0.1 0.5 0.95 0.02 0.5 0.5 0.5) in
  (forall c, fails_or_nonfinite (utility self c)) /\
  (forall m c, fails_or_nonfinite (bequest self m c)) /\
  (forall c2 m2, fails_or_nonfinite (v2 self c2 m2)) /\
  (forall c1 m1 V2, fails_or_nonfinite (v1 self c1 m1 V2)) /\
  (forall m2 x, fails_or_nonfinite (obj_2 self m2 x)) /\
  (forall V2 m1 x, fails_or_nonfinite (obj_1 self V2 m1 x)).
Proof.
  apply (rho_one_never_returns (__init__ (mkPar 1 0.1 0.5 0.95 0.02 0.5 0.5 0.5))).
  reflexivity.
Defined.

(** X5. The value of choice of period 2 is non-decreasing in cash-on-hand at
    fixed consumption when [nu >= 0], and strictly increasing when [nu > 0]. *)
Theorem v2_monotone_in_cash (self : ConsumptionSavingModel) (c2 m2 m2' : R) :
  rho (par self) <> 1 -> 0 <= nu (par self) ->
  0 < c2 -> 0 < m2 - c2 + kappa (par self) -> m2 < m2' ->
  exists a b, v2 self c2 m2 = Return a /\ v2 self c2 m2' = Return b /\
              a <= b /\ (0 < nu (par self) -> a < b).
Proof.
  intros Hrho Hnu Hc Hbase Hm.
  unfold v2. rewrite utility_pos by assumption. simpl.
  rewrite !bequest_pos by (try assumption; lra). simpl.
  do 2 eexists. split; [reflexivity|]. split; [reflexivity|].
  pose proof (crra_increasing (1 - rho (par self))
                (m2 - c2 + kappa (par self)) (m2' - c2 + kappa (par self))
                ltac:(lra) ltac:(lra)) as Hlt.
  unfold Rdiv in *. split; [nra|]. intros Hpos. nra.
Qed.

Lemma v2_monotone_in_cash_witness :
  exists a b, v2 (__init__ par_example) 1 2 = Return a /\
              v2 (__init__ par_example) 1 3 = Return b /\
              a <= b /\ (0 < nu (par (__init__ par_example)) -> a < b).
Proof.
  apply (v2_monotone_in_cash (__init__ par_example) 1 2 3); simpl; lra.
Defined.

(** X6. Without bequest motive ([nu = 0]) the value of choice of period 2 is
    the utility of consumption alone on the whole box [0 < c2 <= m2], so
    consuming everything is strictly better than any smaller consumption. *)
Theorem v2_without_bequest (self : ConsumptionSavingModel) (c2 m2 : R) :
  nu (par self) = 0 -> rho (par self) <> 1 -> 0 < kappa (par self) ->
  0 < c2 <= m2 ->
  v2 self c2 m2 = utility self c2 /\
  (c2 < m2 ->
   exists a b, v2 self c2 m2 = Return a /\ v2 self m2 m2 = Return b /\ a < b).
Proof.
  intros Hnu Hrho Hkappa Hc.
  assert (Hv : forall c, 0 < c <= m2 -> v2 self c m2 = utility self c).
  { intros c Hcm. unfold v2. rewrite utility_pos by lra. simpl.
    rewrite bequest_pos by lra. simpl. rewrite Hnu. f_equal.
    unfold Rdiv. ring. }
  split; [now apply Hv|]. intros Hlt.
  rewrite !Hv by lra.
  rewrite !utility_pos by (try assumption; lra).
  do 2 eexists. split; [reflexivity|]. split; [reflexivity|].
  apply crra_increasing; lra.
Qed.

Lemma v2_without_bequest_witness :
  let self := __init__ (mkPar 2 0 0.5 0.95 0.02 0.5 0.5 0.5) in
  v2 self 1 2 = utility self 1 /\
  (1 < 2 ->
   exists a b, v2 self 1 2 = Return a /\ v2 self 2 2 = Return b /\ a < b).
Proof.
  apply (v2_without_bequest (__init__ (mkPar 2 0 0.5 0.95 0.02 0.5 0.5 0.5)) 1 2);
    simpl; lra.
Defined.

(** X7. Bequest is evaluated even when it has no weight: with [rho > 1],
    [bequest(m, c)] fails at [m - c + kappa = 0] (zero to a negative power)
    whatever [nu] is, also for [nu = 0], and so does [v2(c, m)]. *)
Theorem bequest_zero_base_raises (self : ConsumptionSavingModel) (m c : R) :
  1 < rho (par self) -> m - c + kappa (par self) = 0 ->
  fails_or_nonfinite (bequest self m c) /\
  (0 < c -> fails_or_nonfinite (v2 self c m)).
Proof.
  intros Hrho Hbase.
  assert (Hb : bequest self m c = Raise ZeroDivisionError).
  { unfold bequest, float_pow. rewrite Hbase.
    destruct (Req_dec_T (1 - rho (par self)) 0); [lra|].
    destruct (Req_dec_T 0 0); [|lra].
    destruct (Rlt_dec (1 - rho (par self)) 0); [reflexivity|lra]. }
  split; [now rewrite Hb|]. intros Hc.
  unfold v2. rewrite utility_pos by lra. simpl. now rewrite Hb.
Qed.

Lemma bequest_zero_base_raises_witness :
  let self := __init__ (mkPar 2 0 0.5 0.95 0.02 0.5 0.5 0.5) in
  fails_or_nonfinite (bequest self 1 1.5) /\
  (0 < 1.5 -> fails_or_nonfinite (v2 self 1.5 1)).
Proof.
  apply (bequest_zero_base_raises
           (__init__ (mkPar 2 0 0.5 0.95 0.02 0.5 0.5 0.5)) 1 1.5); simpl; lra.
Defined.

(** * The two sweeps as one *)

Lemma solve_period_2_loop_sweep minimize self its :
  forall v2s c2s,
    solve_period_2_loop minimize self its v2s c2s =
    sweep minimize (obj_2 self) 1e-8 (fun m => m) setitem_array its v2s c2s.
Proof.
  induction its as [|[i m] rest IH]; intros v2s c2s; [reflexivity|].
  cbn [solve_period_2_loop sweep].
  apply mbind_ext; intros res. apply mbind_ext; intros v2s'.
  apply mbind_ext; intros c2s'. apply IH.
Qed.

Lemma solve_period_1_loop_sweep minimize self v2_interp its :
  forall v1s c1s,
    solve_period_1_loop minimize self v2_interp its v1s c1s =
    sweep minimize (obj_1 self v2_interp) 1e-12 (upper_1 self) store_1 its v1s c1s.
Proof.
  induction its as [|[i m] rest IH]; intros v1s c1s; [reflexivity|].
  cbn [solve_period_1_loop sweep].
  apply mbind_ext; intros res. apply mbind_ext; intros v1s'.
  apply mbind_ext; intros c1s'. apply IH.
Qed.

Section Sweep.

Variable minimize :
  (list R -> outcome R) -> list R -> list (R * R) -> outcome optimize.OptimizeResult.
Variable obj : R -> list R -> outcome R.
Variable lo : R.
Variable hi : R -> R.
Variable store : list R -> nat -> list R -> outcome (list R).
Hypothesis Hstore : forall cs i x, store cs i [x] = setitem cs i x.

Lemma sweep_results its :
  forall vs cs,
    length vs = length cs ->
    (forall i m, In (i, m) its ->
       (i < length cs)%nat /\ solved_at minimize obj lo hi m) ->
    exists v' c',
      sweep minimize obj lo hi store its vs cs =
        (map (ev lo hi) its, Return (v', c')) /\
      length v' = length vs /\ length c' = length cs /\
      (forall j, ~ In j (map fst its) ->
                 nth j v' 0 = nth j vs 0 /\ nth j c' 0 = nth j cs 0) /\
      (NoDup (map fst its) ->
       forall i m, In (i, m) its ->
         exists res,
           minimize (obj m) [m / 2] [(lo, hi m)] = Return res /\
           nth i v' 0 = - optimize.fun_ res /\
           optimize.x res = [nth i c' 0]).
Proof.
  induction its as [|[i m] rest IH]; intros vs cs Hlen Hits.
  - exists vs, cs. simpl. repeat split; auto; contradiction.
  - destruct (Hits i m (or_introl eq_refl)) as [Hi (res & xv & Hres & Hx)].
    destruct (setitem_spec vs i (- optimize.fun_ res) 0)
      as (vs1 & Hv1 & Hlv1 & Hnv & Hov); [lia|].
    destruct (setitem_spec cs i xv 0) as (cs1 & Hc1 & Hlc1 & Hnc & Hoc); [lia|].
    destruct (IH vs1 cs1) as (v' & c' & Hsweep & Hlv & Hlc & Hkeep & Hin).
    { lia. }
    { intros j m' Hj. rewrite Hlc1. apply Hits. now right. }
    exists v', c'. split; [|split; [lia|split; [lia|split]]].
    + cbn [sweep].
      rewrite (mbind_Return _ _ [ev lo hi (i, m)] res)
        by (unfold call_minimize, ev; simpl; now rewrite Hres).
      rewrite (mbind_lift_Return _ _ vs1 Hv1).
      rewrite (mbind_lift_Return _ _ cs1) by (rewrite Hx, Hstore; exact Hc1).
      rewrite Hsweep. reflexivity.
    + intros j Hj. simpl in Hj.
      destruct (Hkeep j) as [Hkv Hkc]; [tauto|].
      rewrite Hkv, Hkc. split; [apply Hov|apply Hoc]; intros ->; tauto.
    + intros Hnd j m' Hj. simpl in Hnd.
      apply NoDup_cons_iff in Hnd as [Hnotin Hnd].
      destruct Hj as [[= <- <-]|Hj].
      * exists res. destruct (Hkeep i Hnotin) as [Hkv Hkc].
        split; [exact Hres|]. split; [now rewrite Hkv|].
        now rewrite Hkc, Hnc.
      * now apply Hin.
Qed.

Lemma sweep_raises pre i m post e :
  forall vs cs,
    length vs = length cs ->
    (forall j m', In (j, m') pre ->
       (j < length cs)%nat /\ solved_at minimize obj lo hi m') ->
    minimize (obj m) [m / 2] [(lo, hi m)] = Raise e ->
    sweep minimize obj lo hi store (pre ++ (i, m) :: post) vs cs =
      (map (ev lo hi) pre ++ [ev lo hi (i, m)], Raise e).
Proof.
  induction pre as [|[j m'] pre IH]; intros vs cs Hlen Hpre Hraise.
  - cbn [app sweep map]. unfold mbind, call_minimize, ev. cbn [fst snd].
    now rewrite Hraise.
  - destruct (Hpre j m' (or_introl eq_refl)) as [Hj (res & xv & Hres & Hx)].
    destruct (setitem_spec vs j (- optimize.fun_ res) 0)
      as (vs1 & Hv1 & Hlv1 & _); [lia|].
    destruct (setitem_spec cs j xv 0) as (cs1 & Hc1 & Hlc1 & _); [lia|].
    cbn [app sweep map].
    rewrite (mbind_Return _ _ [ev lo hi (j, m')] res)
      by (unfold call_minimize, ev; simpl; now rewrite Hres).
    rewrite (mbind_lift_Return _ _ vs1 Hv1).
    rewrite (mbind_lift_Return _ _ cs1) by (rewrite Hx, Hstore; exact Hc1).
    rewrite (IH vs1 cs1); [reflexivity|lia| |exact Hraise].
    intros k mk Hk. rewrite Hlc1. apply Hpre. now right.
Qed.

End Sweep.

Lemma setitem_array_singleton cs i x : setitem_array cs i [x] = setitem cs i x.
Proof. reflexivity. Qed.

Lemma store_1_singleton cs i x : store_1 cs i [x] = setitem cs i x.
Proof. reflexivity. Qed.

Lemma enumerate_as_map (l : list R) :
  enumerate l = map (fun j => (j, nth j l 0)) (seq 0 (length l)).
Proof.
  unfold enumerate.
  assert (H : forall s, combine (seq s (length l)) l =
                        map (fun j => (j, nth (j - s) l 0)) (seq s (length l))).
  { induction l as [|a t IH]; intros s; [reflexivity|].
    cbn [length seq combine map]. rewrite Nat.sub_diag. f_equal.
    rewrite IH. apply map_ext_in. intros j Hj. apply in_seq in Hj.
    replace (j - s)%nat with (S (j - S s)) by lia. reflexivity. }
  rewrite H. apply map_ext. intros j. now rewrite Nat.sub_0_r.
Qed.

Lemma enumerate_split (l : list R) k :
  (k < length l)%nat ->
  exists post,
    enumerate l =
    map (fun j => (j, nth j l 0)) (seq 0 k) ++ (k, nth k l 0) :: post.
Proof.
  intros Hk. rewrite enumerate_as_map.
  replace (length l) with (k + S (length l - S k))%nat by lia.
  rewrite seq_app, map_app. cbn [seq map Nat.add].
  eexists. reflexivity.
Qed.

(** * What the stored arrays hold *)

Section Stored.

Variable minimize :
  (list R -> outcome R) -> list R -> list (R * R) -> outcome optimize.OptimizeResult.
Hypothesis Hopt : box_optimizer minimize.

Variable self : ConsumptionSavingModel.
Hypothesis Hpar : well_posed (par self).

Lemma solved_at_2 m :
  1e-4 <= m -> solved_at minimize (obj_2 self) 1e-8 (fun m => m) m.
Proof.
  intros Hm. destruct Hpar as (Hrho & Hkappa & _).
  destruct (minimize_runs _ Hopt (obj_2 self m) (m / 2) 1e-8 m) as [res Hres];
    [lra | apply obj_2_returns; assumption |].
  destruct (minimize_in_bounds _ Hopt _ _ _ _ _ Hres) as (xv & Hx & _).
  now exists res, xv.
Qed.

Lemma solved_at_1 v2_interp m :
  pointwise v2_interp -> 1e-8 <= m ->
  solved_at minimize (obj_1 self v2_interp) 1e-12 (upper_1 self) m.
Proof.
  intros Hv Hm. destruct Hpar as (Hrho & _ & Hr & HDelta).
  pose proof (upper_1_ge self Hr HDelta m) as Hup.
  destruct (minimize_runs _ Hopt (obj_1 self v2_interp m) (m / 2) 1e-12
              (upper_1 self m)) as [res Hres];
    [lra | intros x Hx; apply obj_1_returns; [assumption..|lra] |].
  destruct (minimize_in_bounds _ Hopt _ _ _ _ _ Hres) as (xv & Hx & _).
  now exists res, xv.
Qed.

Lemma solve_period_2_results v2s c2s t :
  solve_period_2 minimize self = (t, Return (m2_grid, v2s, c2s)) ->
  forall i, (i < 500)%nat ->
    exists res,
      minimize (obj_2 self (nth i m2_grid 0)) [nth i m2_grid 0 / 2]
        [(1e-8, nth i m2_grid 0)] = Return res /\
      nth i v2s 0 = - optimize.fun_ res /\
      optimize.x res = [nth i c2s 0].
Proof.
  intros H2 i Hi.
  destruct (sweep_results minimize (obj_2 self) 1e-8 (fun m => m) setitem_array
              setitem_array_singleton (enumerate m2_grid)
              (np.empty 500) (np.empty 500))
    as (v' & c' & Hsweep & _ & _ & _ & Hin).
  { now rewrite !empty_length. }
  { intros j m Hjm. apply (enumerate_In _ _ _ 0) in Hjm as [Hj <-].
    rewrite empty_length, <- m2_grid_length. split; [exact Hj|].
    apply solved_at_2, m2_grid_lower, nth_In, Hj. }
  rewrite solve_period_2_grid, solve_period_2_loop_sweep, Hsweep in H2.
  unfold mbind, mret in H2. cbn [fst snd] in H2.
  injection H2 as _ <- <-.
  apply (Hin (enumerate_NoDup _)), In_enumerate. now rewrite m2_grid_length.
Qed.

Lemma solve_period_1_results v2_interp v1s c1s t :
  pointwise v2_interp ->
  solve_period_1 minimize self v2_interp = (t, Return (m1_grid, v1s, c1s)) ->
  forall i, (i < 100)%nat ->
    exists res,
      minimize (obj_1 self v2_interp (nth i m1_grid 0)) [nth i m1_grid 0 / 2]
        [(1e-12, upper_1 self (nth i m1_grid 0))] = Return res /\
      nth i v1s 0 = - optimize.fun_ res /\
      optimize.x res = [nth i c1s 0].
Proof.
  intros Hv H1 i Hi.
  destruct (sweep_results minimize (obj_1 self v2_interp) 1e-12 (upper_1 self)
              store_1 store_1_singleton (enumerate m1_grid)
              (np.empty 100) (np.empty 100))
    as (v' & c' & Hsweep & _ & _ & _ & Hin).
  { now rewrite !empty_length. }
  { intros j m Hjm. apply (enumerate_In _ _ _ 0) in Hjm as [Hj <-].
    rewrite empty_length, <- m1_grid_length. split; [exact Hj|].
    apply solved_at_1; [exact Hv|]. apply m1_grid_lower, nth_In, Hj. }
  rewrite solve_period_1_grid, solve_period_1_loop_sweep, Hsweep in H1.
  unfold mbind, mret in H1. cbn [fst snd] in H1.
  injection H1 as _ <- <-.
  apply (Hin (enumerate_NoDup _)), In_enumerate. now rewrite m1_grid_length.
Qed.

End Stored.

Lemma obj_value (v : R -> outcome R) (c f : R) :
  obind (v c) (fun y => Return (- y)) = Return f -> v c = Return (- f).
Proof.
  destruct (v c) as [y| |]; simpl; try discriminate.
  intros [= <-]. f_equal. ring.
Qed.

(** X8. With an optimizer that reports the objective at the point it
    returns, the arrays of a solve are consistent: at every grid index the
    stored value is the value of choice at the stored consumption,
    [v2s[i] = v2(c2s[i], m2s[i])] and [v1s[i] = v1(c1s[i], m1s[i], v2_interp)]. *)
Theorem stored_values_consistent
    (minimize : (list R -> outcome R) -> list R -> list (R * R) ->
                outcome optimize.OptimizeResult)
    (self : ConsumptionSavingModel) :
  box_optimizer minimize -> value_reporting minimize ->
  well_posed (par self) ->
  exists m1s v1s c1s m2s v2s c2s v2_interp,
    result (solve minimize self) = Return (m1s, v1s, c1s, m2s, v2s, c2s) /\
    interpolate.new [m2s] v2s false None = Return v2_interp /\
    (forall i, (i < length m2s)%nat ->
       v2 self (nth i c2s 0) (nth i m2s 0) = Return (nth i v2s 0)) /\
    (forall i, (i < length m1s)%nat ->
       v1 self (nth i c1s 0) (nth i m1s 0) (interpolate.call v2_interp) =
       Return (nth i v1s 0)).
Proof.
  intros Hopt Hfun Hpar.
  destruct (solve_spec minimize Hopt self Hpar)
    as (v2s & c2s & v1s & c1s & H2 & Hnew & H1 & Hsolve & _).
  exists m1_grid, v1s, c1s, m2_grid, v2s, c2s.
  exists (interpolate.mkRGI m2_grid v2s false None).
  split; [now rewrite Hsolve|]. split; [exact Hnew|]. split.
  - intros i Hi. rewrite m2_grid_length in Hi.
    destruct (solve_period_2_results minimize Hopt self Hpar _ _ _ H2 i Hi)
      as (res & Hres & Hv & Hx).
    apply Hfun in Hres. rewrite Hx in Hres. unfold obj_2 in Hres.
    cbn [getitem nth_error obind] in Hres.
    apply (obj_value (fun c => v2 self c (nth i m2_grid 0))) in Hres.
    now rewrite Hv.
  - intros i Hi. rewrite m1_grid_length in Hi.
    destruct (solve_period_1_results minimize Hopt self Hpar _ _ _ _
                (pointwise_call (interpolate.mkRGI m2_grid v2s false None) eq_refl)
                H1 i Hi)
      as (res & Hres & Hv & Hx).
    apply Hfun in Hres. rewrite Hx in Hres. unfold obj_1 in Hres.
    cbn [getitem nth_error obind] in Hres.
    apply (obj_value (fun c => v1 self c (nth i m1_grid 0) _)) in Hres.
    now rewrite Hv.
Qed.

Lemma value_reporting_minimize_start : value_reporting minimize_start.
Proof.
  intros f x0 bounds res. unfold minimize_start.
  destruct x0 as [|x [|? ?]]; try discriminate.
  destruct bounds as [|[lo hi] [|? ?]]; try discriminate.
  destruct (Rlt_dec hi lo); [discriminate|].
  destruct (f [clip lo hi x]) as [v| |] eqn:Hf; simpl; try discriminate.
  now intros [= <-].
Qed.

Lemma stored_values_consistent_witness :
  let self := __init__ par_example in
  exists m1s v1s c1s m2s v2s c2s v2_interp,
    result (solve minimize_start self) = Return (m1s, v1s, c1s, m2s, v2s, c2s) /\
    interpolate.new [m2s] v2s false None = Return v2_interp /\
    (forall i, (i < length m2s)%nat ->
       v2 self (nth i c2s 0) (nth i m2s 0) = Return (nth i v2s 0)) /\
    (forall i, (i < length m1s)%nat ->
       v1 self (nth i c1s 0) (nth i m1s 0) (interpolate.call v2_interp) =
       Return (nth i v1s 0)).
Proof.
  exact (stored_values_consistent minimize_start (__init__ par_example)
           box_optimizer_minimize_start value_reporting_minimize_start
           (valid_par_well_posed _ valid_par_example)).
Defined.

(** * The calls made to the optimizer *)

(** X9. For a bundle with [rho <> 1], [kappa > 0], [r > -1] and
    [0 <= Delta <= 1], every call [solve] makes to the optimizer is for one
    variable, on a box with a positive lower bound that contains the initial
    guess. *)
Theorem optimizer_calls_in_box
    (minimize : (list R -> outcome R) -> list R -> list (R * R) ->
                outcome optimize.OptimizeResult)
    (self : ConsumptionSavingModel) :
  box_optimizer minimize -> well_posed (par self) ->
  Forall (fun e =>
            is_minimize e = true ->
            exists x0 lo hi,
              e = EvMinimize [x0] [(lo, hi)] /\ 0 < lo <= x0 /\ x0 <= hi)
    (trace (solve minimize self)).
Proof.
  intros Hopt Hpar. apply Forall_forall. intros e He Hmin.
  destruct (solve_spec minimize Hopt self Hpar)
    as (v2s & c2s & v1s & c1s & _ & _ & _ & Hsolve & _).
  rewrite Hsolve in He. unfold trace, solve_trace in He. cbn [fst] in He.
  apply in_app_or in He as [He|He]; [|apply in_app_or in He as [He|He]].
  - apply in_map_iff in He as ([i m] & <- & Him).
    apply (enumerate_In _ _ _ 0) in Him as [Hi <-].
    rewrite m2_grid_length in Hi.
    pose proof (m2_grid_lower (nth i m2_grid 0)
                  (nth_In _ _ ltac:(rewrite m2_grid_length; exact Hi))) as Hm.
    unfold ev_2. cbn [snd]. do 3 eexists. split; [reflexivity|]. lra.
  - destruct He as [<-|[]]. discriminate.
  - apply in_map_iff in He as ([i m] & <- & Him).
    apply (enumerate_In _ _ _ 0) in Him as [Hi <-].
    rewrite m1_grid_length in Hi.
    pose proof (m1_grid_lower (nth i m1_grid 0)
                  (nth_In _ _ ltac:(rewrite m1_grid_length; exact Hi))) as Hm.
    destruct Hpar as (_ & _ & Hr & HDelta).
    pose proof (upper_1_ge self Hr HDelta (nth i m1_grid 0)) as Hup.
    unfold ev_1. cbn [snd]. do 3 eexists. split; [reflexivity|]. lra.
Qed.

Lemma optimizer_calls_in_box_witness :
  Forall (fun e =>
            is_minimize e = true ->
            exists x0 lo hi,
              e = EvMinimize [x0] [(lo, hi)] /\ 0 < lo <= x0 /\ x0 <= hi)
    (trace (solve minimize_start (__init__ par_example))).
Proof.
  exact (optimizer_calls_in_box minimize_start (__init__ par_example)
           box_optimizer_minimize_start (valid_par_well_posed _ valid_par_example)).
Defined.

(** X10. The box of period 1 is not checked: with [r > -1] and
    [Delta >= 1 + (1+r)*1e-8] the first call of the period-1 sweep, for any
    optimizer and interpolator, passes an upper bound that is not positive,
    below the lower bound [1e-12] and below the initial guess. *)
Theorem period_1_box_unchecked
    (minimize : (list R -> outcome R) -> list R -> list (R * R) ->
                outcome optimize.OptimizeResult)
    (self : ConsumptionSavingModel) (v2_interp : list R -> outcome (list R)) :
  -1 < r (par self) ->
  1 + (1 + r (par self)) * 1e-8 <= Delta (par self) ->
  exists hi t,
    trace (solve_period_1 minimize self v2_interp) =
      EvMinimize [1e-8 / 2] [(1e-12, hi)] :: t /\
    hi <= 0.
Proof.
  intros Hr HDelta.
  exists (upper_1 self 1e-8).
  rewrite solve_period_1_grid.
  match goal with
  | |- context [trace (mbind ?m ?k)] => destruct (trace_mbind m k) as [t ->]
  end.
  destruct (enumerate_split m1_grid 0) as [post ->];
    [rewrite m1_grid_length; lia|].
  destruct m1_grid_ends as [-> _]. cbn [seq map app solve_period_1_loop].
  match goal with
  | |- context [trace (mbind ?m ?k)] => destruct (trace_mbind m k) as [t' ->]
  end.
  eexists. split; [reflexivity|].
  unfold upper_1.
  assert (Hq : (1 - Delta (par self)) / (1 + r (par self)) <= - 1e-8).
  { apply Rmult_le_reg_r with (1 + r (par self)); [lra|].
    unfold Rdiv. rewrite Rmult_assoc, Rinv_l by lra. lra. }
  lra.
Qed.

Lemma period_1_box_unchecked_witness :
  exists hi t,
    trace (solve_period_1 minimize_start (__init__ par_wide) (fun xi => Return xi)) =
      EvMinimize [1e-8 / 2] [(1e-12, hi)] :: t /\
    hi <= 0.
Proof.
  apply (period_1_box_unchecked minimize_start (__init__ par_wide)
           (fun xi => Return xi)); simpl; lra.
Defined.

Lemma mbind_Raise {A B : Type} (m : M A) (k : A -> M B) t e :
  m = (t, Raise e) -> mbind m k = (t, Raise e).
Proof. now intros ->. Qed.

(** X11. Nothing is caught: when the optimizer raises at the [k]-th point
    of the period-2 grid, after returning for the points before it, [solve]
    and [simulate] raise the same error, having made [k + 1] optimizer calls
    and no other call; the arrays filled so far are lost. *)
Theorem optimizer_failure_aborts
    (minimize : (list R -> outcome R) -> list R -> list (R * R) ->
                outcome optimize.OptimizeResult)
    (self : ConsumptionSavingModel) (k : nat) (e : exn) :
  (k < 500)%nat ->
  (forall j, (j < k)%nat ->
     solved_at minimize (obj_2 self) 1e-8 (fun m => m) (nth j m2_grid 0)) ->
  minimize (obj_2 self (nth k m2_grid 0)) [nth k m2_grid 0 / 2]
    [(1e-8, nth k m2_grid 0)] = Raise e ->
  exists t,
    solve minimize self = (t, Raise e) /\
    simulate minimize self = (t, Raise e) /\
    length t = S k /\ forallb is_minimize t = true.
Proof.
  intros Hk Hpre Hraise.
  destruct (enumerate_split m2_grid k) as [post Hsplit];
    [rewrite m2_grid_length; exact Hk|].
  set (pre := map (fun j => (j, nth j m2_grid 0)) (seq 0 k)) in Hsplit.
  assert (H2 : solve_period_2 minimize self =
               (map (ev 1e-8 (fun m => m)) pre ++
                  [ev 1e-8 (fun m => m) (k, nth k m2_grid 0)], Raise e)).
  { rewrite solve_period_2_grid, solve_period_2_loop_sweep, Hsplit.
    apply mbind_Raise.
    apply sweep_raises; [apply setitem_array_singleton | now rewrite !empty_length | | exact Hraise].
    intros j m Hjm. apply in_map_iff in Hjm as (j' & [= <- <-] & Hj).
    apply in_seq in Hj. rewrite empty_length. split; [lia|]. apply Hpre. lia. }
  eexists. split; [|split; [|split]].
  - unfold solve. apply mbind_Raise. exact H2.
  - unfold simulate. apply mbind_Raise. unfold solve. apply mbind_Raise. exact H2.
  - unfold pre. rewrite length_app, !length_map, length_seq. simpl. lia.
  - rewrite forallb_app. apply andb_true_intro. split; [|reflexivity].
    apply forallb_forall. intros x Hx. apply in_map_iff in Hx.
    now destruct Hx as (it & <- & _).
Qed.

Lemma optimizer_failure_aborts_witness :
  exists t,
    solve (minimize_raising ValueError) (__init__ par_example) = (t, Raise ValueError) /\
    simulate (minimize_raising ValueError) (__init__ par_example) =
      (t, Raise ValueError) /\
    length t = 1%nat /\ forallb is_minimize t = true.
Proof.
  apply (optimizer_failure_aborts (minimize_raising ValueError)
           (__init__ par_example) 0 ValueError).
  - lia.
  - intros j Hj. lia.
  - reflexivity.
Defined.

(** * Interpolation at the grid *)

Lemma ascending_nth_mono g :
  interpolate.strictly_ascending g = true ->
  forall i j, (i < j)%nat -> (j < length g)%nat -> nth i g 0 < nth j g 0.
Proof.
  intros Hasc i j Hij. induction j as [|j IH]; [lia|]. intros Hj.
  pose proof (ascending_nth_lt g Hasc j Hj) as Hstep.
  destruct (Nat.eq_dec i j) as [->|Hne]; [exact Hstep|].
  specialize (IH ltac:(lia) ltac:(lia)). lra.
Qed.

Lemma searchsorted_at g x i :
  (i < length g)%nat ->
  (forall j, (j < i)%nat -> nth j g 0 < x) -> ~ nth i g 0 < x ->
  np.searchsorted g x = i.
Proof.
  revert i. induction g as [|a t IH]; intros i Hi Hbelow Hat; simpl in Hi; [lia|].
  simpl. destruct i as [|i].
  - simpl in Hat. destruct (Rlt_dec a x); [contradiction|reflexivity].
  - destruct (Rlt_dec a x) as [_|Hn].
    + f_equal. apply IH; [lia| |exact Hat].
      intros j Hj. apply (Hbelow (S j)). lia.
    + destruct Hn. apply (Hbelow 0%nat). lia.
Qed.

Lemma evaluate_linear_at_grid g vals i :
  interpolate.strictly_ascending g = true -> (2 <= length g)%nat ->
  (i < length g)%nat ->
  interpolate.evaluate_linear g vals (nth i g 0) = nth i vals 0.
Proof.
  intros Hasc Hlen Hi.
  assert (Hss : np.searchsorted g (nth i g 0) = i).
  { apply searchsorted_at; [exact Hi| |lra].
    intros j Hj. now apply ascending_nth_mono. }
  destruct i as [|i].
  - rewrite (evaluate_linear_line g vals 0%nat).
    + unfold line. field.
      pose proof (ascending_nth_lt g Hasc 0%nat ltac:(lia)). lra.
    + apply ascending_nth_lt; [assumption|lia].
    + apply find_index_left; [assumption|lra].
  - rewrite (evaluate_linear_line g vals i).
    + unfold line. field.
      pose proof (ascending_nth_lt g Hasc i Hi). lra.
    + now apply ascending_nth_lt.
    + unfold interpolate.find_index. rewrite Hss.
      destruct (Z.ltb_spec (Z.of_nat (S i) - 1) 0); [lia|].
      destruct (Z.gtb_spec (Z.of_nat (S i) - 1) (Z.of_nat (length g) - 2)); lia.
Qed.

Lemma call_at_grid f :
  interpolate.bounds_error f = false -> interpolate.fill_value f = None ->
  interpolate.strictly_ascending (interpolate.grid f) = true ->
  (2 <= length (interpolate.grid f))%nat ->
  length (interpolate.values f) = length (interpolate.grid f) ->
  interpolate.call f (interpolate.grid f) = Return (interpolate.values f).
Proof.
  intros Hbe Hfv Hasc Hlen Hvals.
  rewrite interpolate_call_extrapolating by assumption. f_equal.
  apply (nth_ext _ _ 0 0); [now rewrite length_map|].
  intros n Hn. rewrite length_map in Hn.
  rewrite nth_indep with (d' := interpolate.eval f 0) by now rewrite length_map.
  rewrite map_nth, interpolate_eval_no_fill by assumption.
  now apply evaluate_linear_at_grid.
Qed.

(** X12. Simulating at the grid reproduces the policy: when the draws are
    the period-1 grid itself, [simulate()] returns the array [c1] of
    [solve()]; more generally a draw equal to [m1[i]] is mapped to [c1[i]]. *)
Theorem simulate_at_grid
    (minimize : (list R -> outcome R) -> list R -> list (R * R) ->
                outcome optimize.OptimizeResult)
    (self : ConsumptionSavingModel) :
  box_optimizer minimize -> well_posed (par self) ->
  exists m1s v1s c1s m2s v2s c2s c1_interp1,
    result (solve minimize self) = Return (m1s, v1s, c1s, m2s, v2s, c2s) /\
    interpolate.new [m1s] c1s false None = Return c1_interp1 /\
    (forall i, (i < length m1s)%nat ->
       interpolate.call c1_interp1 [nth i m1s 0] = Return [nth i c1s 0]) /\
    (sim_m1 self = m1s -> result (simulate minimize self) = Return c1s).
Proof.
  intros Hopt Hpar.
  destruct (solve_spec minimize Hopt self Hpar)
    as (v2s & c2s & v1s & c1s & _ & _ & _ & Hsolve & _ & [_ Hlc1] & _).
  destruct (simulate_spec minimize Hopt self Hpar)
    as (v2s' & c2s' & v1s' & c1s' & Hsolve' & Hnew & Hsim).
  rewrite Hsolve in Hsolve'. injection Hsolve' as _ <- <- <- <-.
  set (f := interpolate.mkRGI m1_grid c1s false None) in *.
  exists m1_grid, v1s, c1s, m2_grid, v2s, c2s, f.
  split; [now rewrite Hsolve|]. split; [exact Hnew|]. split.
  - intros i Hi. rewrite interpolate_call_extrapolating by reflexivity.
    cbn [map]. rewrite interpolate_eval_no_fill by reflexivity.
    unfold f. cbn [interpolate.grid interpolate.values].
    rewrite evaluate_linear_at_grid;
      [reflexivity|apply m1_grid_ascending|rewrite m1_grid_length; lia|exact Hi].
  - intros Hdraws. rewrite Hsim. unfold result. cbn [snd]. rewrite Hdraws.
    apply (call_at_grid f); try reflexivity.
    + apply m1_grid_ascending.
    + unfold f. cbn [interpolate.grid]. rewrite m1_grid_length. lia.
    + unfold f. cbn [interpolate.grid interpolate.values].
      now rewrite Hlc1, m1_grid_length.
Qed.

Lemma simulate_at_grid_witness :
  let self := mkModel par_example m1_grid [] in
  exists m1s v1s c1s m2s v2s c2s c1_interp1,
    result (solve minimize_start self) = Return (m1s, v1s, c1s, m2s, v2s, c2s) /\
    interpolate.new [m1s] c1s false None = Return c1_interp1 /\
    (forall i, (i < length m1s)%nat ->
       interpolate.call c1_interp1 [nth i m1s 0] = Return [nth i c1s 0]) /\
    (sim_m1 self = m1s -> result (simulate minimize_start self) = Return c1s).
Proof.
  exact (simulate_at_grid minimize_start (mkModel par_example m1_grid [])
           box_optimizer_minimize_start (valid_par_well_posed _ valid_par_example)).
Defined.

(** * Consequences of the period-1 box *)

(** X13. For a valid bundle, at every grid index the stored period-1
    consumption leaves a non-negative cash-on-hand for period 2 in the low
    income state, [(1+r)*(m1s[i]-c1s[i]) + 1 - Delta >= 0], and at least
    [2*Delta] in the high income state. *)
Theorem next_period_cash_nonnegative
    (minimize : (list R -> outcome R) -> list R -> list (R * R) ->
                outcome optimize.OptimizeResult)
    (self : ConsumptionSavingModel) :
  box_optimizer minimize -> valid_par (par self) ->
  exists m1s v1s c1s m2s v2s c2s,
    result (solve minimize self) = Return (m1s, v1s, c1s, m2s, v2s, c2s) /\
    forall i, (i < length m1s)%nat ->
      0 <= (1 + r (par self)) * (nth i m1s 0 - nth i c1s 0) + 1 - Delta (par self) /\
      2 * Delta (par self) <=
        (1 + r (par self)) * (nth i m1s 0 - nth i c1s 0) + 1 + Delta (par self).
Proof.
  intros Hopt Hvalid.
  pose proof (valid_par_well_posed _ Hvalid) as Hpar.
  destruct (solve_spec minimize Hopt self Hpar)
    as (v2s & c2s & v1s & c1s & _ & _ & _ & Hsolve & _ & _ & _ & Hb1).
  exists m1_grid, v1s, c1s, m2_grid, v2s, c2s.
  split; [now rewrite Hsolve|].
  intros i Hi. rewrite m1_grid_length in Hi. specialize (Hb1 i Hi).
  destruct Hpar as (_ & _ & Hr & HDelta).
  unfold upper_1 in Hb1.
  set (q := (1 - Delta (par self)) / (1 + r (par self))) in *.
  assert (Hq : q * (1 + r (par self)) = 1 - Delta (par self)).
  { unfold q. field. lra. }
  split; nra.
Qed.

Lemma next_period_cash_nonnegative_witness :
  let self := __init__ par_example in
  exists m1s v1s c1s m2s v2s c2s,
    result (solve minimize_start self) = Return (m1s, v1s, c1s, m2s, v2s, c2s) /\
    forall i, (i < length m1s)%nat ->
      0 <= (1 + r (par self)) * (nth i m1s 0 - nth i c1s 0) + 1 - Delta (par self) /\
      2 * Delta (par self) <=
        (1 + r (par self)) * (nth i m1s 0 - nth i c1s 0) + 1 + Delta (par self).
Proof.
  exact (next_period_cash_nonnegative minimize_start (__init__ par_example)
           box_optimizer_minimize_start valid_par_example).
Defined.

(** * The grids *)



(** * What the methods read *)

Lemma solve_period_1_reads_par minimize self1 self2 v2_interp :
  par self1 = par self2 ->
  solve_period_1 minimize self1 v2_interp = solve_period_1 minimize self2 v2_interp.
Proof.
  intros Hpar. rewrite !solve_period_1_grid, !solve_period_1_loop_sweep.
  replace (obj_1 self2 v2_interp) with (obj_1 self1 v2_interp)
    by (unfold obj_1, v1, utility; now rewrite Hpar).
  replace (upper_1 self2) with (upper_1 self1)
    by (unfold upper_1; now rewrite Hpar).
  reflexivity.
Qed.

Lemma solve_period_2_reads_par minimize self1 self2 :
  par self1 = par self2 ->
  solve_period_2 minimize self1 = solve_period_2 minimize self2.
Proof.
  intros Hpar. rewrite !solve_period_2_grid.
  rewrite (solve_period_2_loop_independent minimize self1 self2);
    [reflexivity|].
  apply obj_2_independent; now rewrite Hpar.
Qed.

(** X15. [solve] reads the bundle only: two objects with the same [par]
    give the same run of [solve] whatever their [sim_m1] and [data_m1]; and
    [simulate] reads only [par] and [sim_m1], never [data_m1]. *)
Theorem solve_reads_only_par
    (minimize : (list R -> outcome R) -> list R -> list (R * R) ->
                outcome optimize.OptimizeResult)
    (self1 self2 : ConsumptionSavingModel) :
  par self1 = par self2 ->
  solve minimize self1 = solve minimize self2 /\
  (sim_m1 self1 = sim_m1 self2 ->
   simulate minimize self1 = simulate minimize self2).
Proof.
  intros Hpar.
  assert (Hsolve : solve minimize self1 = solve minimize self2).
  { unfold solve.
    rewrite (solve_period_2_reads_par minimize self1 self2 Hpar).
    apply mbind_ext. intros [[m2 v2] c2].
    apply mbind_ext. intros v2_interp.
    now rewrite (solve_period_1_reads_par minimize self1 self2). }
  split; [exact Hsolve|]. intros Hsim.
  unfold simulate. rewrite Hsolve, Hsim. reflexivity.
Qed.

Lemma solve_reads_only_par_witness :
  solve minimize_start (mkModel par_example [1; 2; 3] [4]) =
  solve minimize_start (mkModel par_example [1; 2; 3] []) /\
  simulate minimize_start (mkModel par_example [1; 2; 3] [4]) =
  simulate minimize_start (mkModel par_example [1; 2; 3] []).
Proof.
  destruct (solve_reads_only_par minimize_start
              (mkModel par_example [1; 2; 3] [4])
              (mkModel par_example [1; 2; 3] []) eq_refl) as [Hsolve Hsim].
  split; [exact Hsolve|exact (Hsim eq_refl)].
Defined.

(** * The boxes and the objectives *)

(** X16. The box of period 2 keeps its objective defined only through
    [kappa]: with [rho <> 1] and [kappa > 0] the objective returns at every
    point of [[1e-8, m2]], but with [kappa = 0] and [rho > 1] it fails at the
    upper bound [c2 = m2] of its own box. *)
Theorem period_2_objective_on_box (self : ConsumptionSavingModel) (m2 : R) :
  rho (par self) <> 1 -> 1e-8 <= m2 ->
  (0 < kappa (par self) ->
   forall x, 1e-8 <= x <= m2 -> returns (obj_2 self m2 [x])) /\
  (kappa (par self) = 0 -> 1 < rho (par self) ->
   fails_or_nonfinite (obj_2 self m2 [m2])).
Proof.
  intros Hrho Hm. split.
  - intros Hkappa x Hx. now apply obj_2_returns.
  - intros Hkappa Hgt. unfold obj_2. cbn [getitem nth_error obind].
    unfold v2. rewrite utility_pos by lra. cbn [obind].
    unfold bequest, float_pow.
    replace (m2 - m2 + kappa (par self)) with 0 by (rewrite Hkappa; ring).
    destruct (Req_dec_T (1 - rho (par self)) 0); [lra|].
    destruct (Req_dec_T 0 0); [|lra].
    destruct (Rlt_dec (1 - rho (par self)) 0); [exact I|lra].
Qed.

Lemma period_2_objective_on_box_witness :
  let self := __init__ par_example in
  (0 < kappa (par self) ->
   forall x, 1e-8 <= x <= 1 -> returns (obj_2 self 1 [x])) /\
  (kappa (par self) = 0 -> 1 < rho (par self) ->
   fails_or_nonfinite (obj_2 self 1 [1])).
Proof.
  apply (period_2_objective_on_box (__init__ par_example) 1); simpl; lra.
Defined.

(** X17. The upper bound of the period-1 box is the consumption at which
    cash-on-hand in the low income state reaches zero: with [r > -1],
    [c1 <= m1 + (1-Delta)/(1+r)] exactly when
    [(1+r)*(m1-c1) + 1 - Delta >= 0]. *)
Theorem period_1_bound_is_zero_cash (self : ConsumptionSavingModel) (c1 m1 : R) :
  -1 < r (par self) ->
  c1 <= upper_1 self m1 <->
  0 <= (1 + r (par self)) * (m1 - c1) + 1 - Delta (par self).
Proof.
  intros Hr. unfold upper_1.
  set (q := (1 - Delta (par self)) / (1 + r (par self))).
  assert (Hq : q * (1 + r (par self)) = 1 - Delta (par self)).
  { unfold q. field. lra. }
  split; intros H; nra.
Qed.

Lemma period_1_bound_is_zero_cash_witness :
  1 <= upper_1 (__init__ par_example) 2 <->
  0 <= (1 + r (par (__init__ par_example))) * (2 - 1) + 1
       - Delta (par (__init__ par_example)).
Proof.
  apply (period_1_bound_is_zero_cash (__init__ par_example) 1 2).
  simpl. lra.
Defined.

(** * The draws are an attribute; every call solves again *)

Lemma solve_same_par minimize self1 self2 :
  par self1 = par self2 -> solve minimize self1 = solve minimize self2.
Proof.
  intros Hpar. unfold solve.
  rewrite (solve_period_2_reads_par minimize self1 self2 Hpar).
  apply mbind_ext. intros [[m2 v2] c2].
  apply mbind_ext. intros v2_interp.
  now rewrite (solve_period_1_reads_par minimize self1 self2).
Qed.

Lemma count_minimize_solve_trace self v2s :
  length (filter is_minimize (solve_trace self v2s)) = 600%nat.
Proof.
  unfold solve_trace. rewrite !filter_app, !length_app.
  rewrite !count_minimize_sweep by reflexivity.
  rewrite !enumerate_length, m1_grid_length, m2_grid_length. reflexivity.
Qed.

(** C10. [simulate] has no draw argument: what it returns is the policy
    interpolator applied to the attribute [sim_m1] of the object, whatever
    [data_m1] holds; the constructor sets [sim_m1] to the empty list, so on a
    fresh object the output has length 0, and after the caller assigns
    [sim_m1 = draws] the output is the interpolator applied to [draws]. Every
    call runs [solve] in full: its calls are those of [solve] (600 optimizer
    calls) followed by the construction of the policy interpolator, also for
    a call that follows another one with new draws (1200 optimizer calls for
    the two). *)
Theorem simulate_reads_attribute_and_resolves
    (minimize : (list R -> outcome R) -> list R -> list (R * R) ->
                outcome optimize.OptimizeResult)
    (p : Par) :
  box_optimizer minimize ->
  valid_par p ->
  sim_m1 (__init__ p) = [] /\
  (exists sim_c1, result (simulate minimize (__init__ p)) = Return sim_c1 /\
                  length sim_c1 = 0%nat) /\
  (forall self, par self = p ->
     exists m1s v1s c1s m2s v2s c2s c1_interp1,
       result (solve minimize self) = Return (m1s, v1s, c1s, m2s, v2s, c2s) /\
       interpolate.new [m1s] c1s false None = Return c1_interp1 /\
       result (simulate minimize self) =
         Return (map (interpolate.eval c1_interp1) (sim_m1 self)) /\
       trace (simulate minimize self) =
         trace (solve minimize self) ++ [EvInterpolator [m1s] c1s false None] /\
       length (filter is_minimize (trace (solve minimize self))) = 600%nat /\
       (forall draws,
          result (simulate minimize (set_sim_m1 self draws)) =
            Return (map (interpolate.eval c1_interp1) draws) /\
          trace (simulate minimize (set_sim_m1 self draws)) =
            trace (simulate minimize self) /\
          length (filter is_minimize
                    (trace (mbind (simulate minimize self)
                              (fun _ => simulate minimize (set_sim_m1 self draws)))))
          = 1200%nat)).
Proof.
  intros Hopt Hvalid. split; [reflexivity|]. split.
  - destruct (simulate_spec minimize Hopt (__init__ p) (valid_par_well_posed _ Hvalid))
      as (v2s & c2s & v1s & c1s & _ & _ & Hsim).
    rewrite Hsim. eexists. split; reflexivity.
  - intros self <-.
    pose proof (valid_par_well_posed _ Hvalid) as Hpar.
    destruct (simulate_spec minimize Hopt self Hpar)
      as (v2s & c2s & v1s & c1s & Hsolve & Hnew & Hsim).
    exists m1_grid, v1s, c1s, m2_grid, v2s, c2s.
    exists (interpolate.mkRGI m1_grid c1s false None).
    split; [now rewrite Hsolve|]. split; [exact Hnew|].
    split; [now rewrite Hsim|]. split; [now rewrite Hsim, Hsolve|].
    split; [rewrite Hsolve; apply count_minimize_solve_trace|].
    intros draws.
    destruct (simulate_spec minimize Hopt (set_sim_m1 self draws) Hpar)
      as (v2s' & c2s' & v1s' & c1s' & Hsolve' & _ & Hsim').
    rewrite (solve_same_par minimize (set_sim_m1 self draws) self eq_refl),
      Hsolve in Hsolve'.
    injection Hsolve' as _ <- <- <- <-.
    assert (Htrace : trace (simulate minimize (set_sim_m1 self draws)) =
                     trace (simulate minimize self)).
    { now rewrite Hsim, Hsim'. }
    split; [now rewrite Hsim'|]. split; [exact Htrace|].
    assert (Hres : result (simulate minimize self) =
                   Return (map (interpolate.eval
                                  (interpolate.mkRGI m1_grid c1s false None))
                             (sim_m1 self)))
      by now rewrite Hsim.
    rewrite (trace_mbind_Return (simulate minimize self)
               (fun _ => simulate minimize (set_sim_m1 self draws)) _ Hres).
    rewrite Htrace, Hsim. unfold trace. cbn [fst].
    rewrite !filter_app, !length_app, count_minimize_solve_trace. reflexivity.
Qed.

Lemma simulate_reads_attribute_and_resolves_witness :
  sim_m1 (__init__ par_example) = [] /\
  (exists sim_c1, result (simulate minimize_start (__init__ par_example)) = Return sim_c1 /\
                  length sim_c1 = 0%nat) /\
  (forall self, par self = par_example ->
     exists m1s v1s c1s m2s v2s c2s c1_interp1,
       result (solve minimize_start self) = Return (m1s, v1s, c1s, m2s, v2s, c2s) /\
       interpolate.new [m1s] c1s false None = Return c1_interp1 /\
       result (simulate minimize_start self) =
         Return (map (interpolate.eval c1_interp1) (sim_m1 self)) /\
       trace (simulate minimize_start self) =
         trace (solve minimize_start self) ++ [EvInterpolator [m1s] c1s false None] /\
       length (filter is_minimize (trace (solve minimize_start self))) = 600%nat /\
       (forall draws,
          result (simulate minimize_start (set_sim_m1 self draws)) =
            Return (map (interpolate.eval c1_interp1) draws) /\
          trace (simulate minimize_start (set_sim_m1 self draws)) =
            trace (simulate minimize_start self) /\
          length (filter is_minimize
                    (trace (mbind (simulate minimize_start self)
                              (fun _ => simulate minimize_start (set_sim_m1 self draws)))))
          = 1200%nat)).
Proof.
  exact (simulate_reads_attribute_and_resolves minimize_start par_example
           box_optimizer_minimize_start valid_par_example).
Defined.
